(** * faucet-server: cooldown store, token registry and dispatch

    A shallow embedding of the faucet service of [src/unnamed/part_000]
    (the revision that has the cooldown store, the periodic sweep, the
    registry with [ETH], [USDC] and [EDG], and [sentNativeTokens]).

    Modelling conventions.
    - [sentMemory] and [supportedTokens] are JavaScript objects used as
      string-keyed maps; they are finite maps over their own properties.
      The code reads them with [obj[key]] and [key in obj], which also see
      the members that every object inherits from [Object.prototype]
      ([toString], [constructor], [__proto__], ...), and it enumerates them
      with [for ... in].  The finite maps agree with the code for the
      names that are not such members ([ordinary] below) in a store whose
      prototype was never replaced through the address [__proto__]
      ([ordinary_store] below); the statements that depend on a read or on
      a membership test of a name that the request chooses say so in their
      hypotheses.  Outside that region the code leaks inherited members
      (a read yields a function, [in] is true, an inherited accessor may
      throw); this is not modelled.
    - Timestamps are the integer milliseconds of [Date.now()], in [Z].  One
      request (resp. one sweep) reads one clock value [now]: the reads of
      the clock inside it are synchronous.
    - The chain (ethers wallets, the JHKToken contract) is an external
      collaborator: an oracle [rpc] says, for each call, whether it is
      acknowledged with a transaction hash or throws an error with a
      message.  Every call made is appended to a log, so that "no network
      call" is a statement about that log.
    - [async]/[await] is sequential composition; a JavaScript exception is
      the [Abrupt] completion of a computation and [try]/[catch] is
      [try_catch]. *)

From Stdlib Require Import Ascii.
From stdpp Require Import gmap strings list fin_maps pretty.

Open Scope string_scope.
Open Scope list_scope.
Open Scope Z_scope.

(** ** Data model *)

(** [type SentData = { [tokenName: string]: number }]
    [type SentMemory = { [address: string]: SentData }] *)
Abbreviation SentData := (gmap string Z).
Abbreviation SentMemory := (gmap string (gmap string Z)).

(** The two signing wallets, each bound to its own JSON-RPC provider
    ([ethersWallet] to [ethersProvider], [edgWallet] to [edgProvider]). *)
Inductive Provider := ethersProvider | edgProvider.
Inductive Wallet := ethersWallet | edgWallet.

Definition provider_of (w : Wallet) : Provider :=
  match w with
  | ethersWallet => ethersProvider
  | edgWallet => edgProvider
  end.

(** The contract handle [JHKToken__factory.connect(..., ethersWallet)]. *)
Inductive JHKToken := jhkToken.

(** [faucetAmount: BigNumber | string]. *)
Inductive Amount :=
| BigNumber (wei : N)
| HexString (text : string).

(** Template-literal interpolation of an amount: [BigNumber.toString()] is
    the decimal numeral, a string is itself. *)
Definition show_amount (a : Amount) : string :=
  match a with
  | BigNumber wei => pretty wei
  | HexString text => text
  end.

(** [ethers.utils.parseEther("5.0")]: five ether in wei. *)
Definition parseEther_5_0 : Amount := BigNumber (5 * 10 ^ 18)%N.

Record TokenConfig := {
  faucetAmount : Amount;
  contract : option JHKToken
}.

(** The interactions with the chain that the service can start. *)
Inductive ChainCall :=
| SendTransaction (wallet : Wallet) (to : string) (value : Amount)
| ContractTransfer (handle : JHKToken) (to : string) (amount : Amount).

(** What the chain answers: a pending transaction with its hash, or a
    thrown error with its message. *)
Inductive ChainOutcome :=
| Submitted (hash : string)
| Rejected (message : string).

(** The mutable state of the process: the cooldown memory and the log of
    the chain calls made so far (oldest first). *)
Record World := {
  sentMemory : SentMemory;
  chainCalls : list ChainCall
}.

(** ** Computations: state, and normal or abrupt completion *)

Inductive Completion (A : Type) :=
| Normal (value : A)
| Abrupt (message : string).
Arguments Normal {A} value.
Arguments Abrupt {A} message.

Definition Eff (A : Type) : Type := World → Completion A * World.

#[global] Instance eff_ret : MRet Eff := λ A (a : A) (w : World), (Normal a, w).

#[global] Instance eff_bind : MBind Eff :=
  λ A B (k : A → Eff B) (c : Eff A) (w : World),
    match c w with
    | (Normal a, w') => k a w'
    | (Abrupt message, w') => (Abrupt message, w')
    end.

Definition throw {A} (message : string) : Eff A := λ w, (Abrupt message, w).

(** [try { body } catch (err) { handler(err.message) }] *)
Definition try_catch {A} (body : Eff A) (handler : string → Eff A) : Eff A :=
  λ w, match body w with
       | (Normal a, w') => (Normal a, w')
       | (Abrupt message, w') => handler message w'
       end.

Definition read_memory : Eff SentMemory := λ w, (Normal (sentMemory w), w).

Definition write_memory (m : SentMemory) : Eff unit :=
  λ w, (Normal tt, {| sentMemory := m; chainCalls := chainCalls w |}).

(** ** Cooldown store *)

(** 24 * 60 * 60 * 1000 *)
Definition cooldown_ms : Z := 24 * 60 * 60 * 1000.

(** 1000 * 60 * 60 * 24, the period handed to [setInterval]. *)
Definition sweep_interval_ms : Z := 1000 * 60 * 60 * 24.

(** Truthiness of a JavaScript number that is an integer: everything but 0. *)
Definition truthy (n : Z) : bool := negb (n =? 0).

(** The entry of a pair: the own property [token] of the own property
    [address] of [sentMemory], when both exist. *)
Definition entry (m : SentMemory) (address token : string) : option Z :=
  m !! address ≫= (λ data : SentData, data !! token).

(** [if (sentMemory[address] && sentMemory[address][tokenName])
       return sentMemory[address][tokenName]; else return undefined;]
    The two reads are reads of own properties: this is what the code does
    for ordinary names in an ordinary store. *)
Definition getLastSentTimeStamp (address tokenName : string) : Eff (option Z) :=
  m ← read_memory;
  match m !! address with
  | Some data =>
      match data !! tokenName with
      | Some stamp => if truthy stamp then mret (Some stamp) else mret None
      | None => mret None
      end
  | None => mret None
  end.

Section Clock.
(** The value of [Date.now()]. *)
Variable now : Z.

(** [if (sentMemory[address])
       sentMemory[address] = { ...sentMemory[address], [token]: Date.now() }
     else sentMemory[address] = { [token]: Date.now() }]
    For the address [__proto__] the entry written here stands for the
    object that the code installs as the prototype of [sentMemory]. *)
Definition setLastSentTimeStamp (address token : string) : Eff unit :=
  m ← read_memory;
  match m !! address with
  | Some data => write_memory (<[address := <[token := now]> data]> m)
  | None => write_memory (<[address := {[token := now]}]> m)
  end.

(** The body of the inner loop of the sweep, over the tokens of one
    address: [if (sentMemory[address][token] <= Date.now() - 24*60*60*1000)
    delete sentMemory[address][token]]. *)
Definition sweep_tokens (data : SentData) : SentData :=
  map_fold (λ (token : string) (stamp : Z) (acc : SentData),
              if bool_decide (stamp ≤ now - cooldown_ms)
              then delete token acc else acc)
           data data.

(** The callback of [setInterval]: for every address, for every token.
    The [for ... in] of the code visits the own keys of an ordinary store;
    what it does with a replaced prototype is not modelled. *)
Definition sweep (m : SentMemory) : SentMemory :=
  map_fold (λ (address : string) (data : SentData) (acc : SentMemory),
              <[address := sweep_tokens data]> acc)
           m m.

(** The guard of the handler:
    [!lastSent || lastSent <= Date.now() - 24 * 60 * 60 * 1000]. *)
Definition cooled_down (lastSent : option Z) : bool :=
  match lastSent with
  | None => true
  | Some stamp => negb (truthy stamp) || bool_decide (stamp ≤ now - cooldown_ms)
  end.
End Clock.

(** The sweep as the timer runs it, on the process state. *)
Definition sweep_callback (now : Z) : Eff unit :=
  m ← read_memory; write_memory (sweep now m).

(** ** Token registry *)

(** [const supportedTokens = { 'ETH': {...}, 'USDC': {...}, 'EDG': {...} }] *)
Definition supportedTokens : gmap string TokenConfig :=
  list_to_map
    [ ("ETH",  {| faucetAmount := parseEther_5_0; contract := None |});
      ("USDC", {| faucetAmount := HexString "0x25AF080"; contract := Some jhkToken |});
      ("EDG",  {| faucetAmount := parseEther_5_0; contract := None |}) ].

(** [switch (tokenName) { case 'USDC': return supportedTokens.USDC;
                          default: return undefined; }] *)
Definition getContract (tokenName : string) : option TokenConfig :=
  if decide (tokenName = "USDC") then supportedTokens !! "USDC" else None.

(** [supportedTokens[tokenName].faucetAmount]: reading a property of
    [undefined] throws a [TypeError]. *)
Definition registry_amount (tokenName : string) : Eff Amount :=
  match supportedTokens !! tokenName with
  | Some config => mret (faucetAmount config)
  | None => throw "Cannot read property 'faucetAmount' of undefined"
  end.

(** ** Address pattern: [/^0x[a-fA-F0-9]{40}$/] *)

Definition is_hex_digit (c : ascii) : bool :=
  let n := Z.of_nat (nat_of_ascii c) in
  ((48 <=? n) && (n <=? 57)) || ((65 <=? n) && (n <=? 70))
  || ((97 <=? n) && (n <=? 102)).

Fixpoint all_hex (s : string) : bool :=
  match s with
  | EmptyString => true
  | String c rest => is_hex_digit c && all_hex rest
  end.

(** [address && /^0x[a-fA-F0-9]{40}$/.test(address)] *)
Definition valid_address (address : string) : bool :=
  match address with
  | String "0"%char (String "x"%char digits) =>
      (Z.of_nat (String.length digits) =? 40) && all_hex digits
  | _ => false
  end.

(** ** Dispatcher and request handler *)

(** The refusal of the cooldown branch, with the spelling of the source. *)
Definition already_received : string :=
  "Have already recieved tokens in last 24 hours.".

Definition invalid_address : string := "Invalid address".

Definition unsupported_token (token : string) : string :=
  "Unsupported token " +:+ token +:+ ".".

(** [`Sent ${amount} ${tokenName} TX hash: ${tx.hash}.`] *)
Definition sent_with_hash (amount : Amount) (token hash : string) : string :=
  "Sent " +:+ show_amount amount +:+ " " +:+ token +:+ " TX hash: " +:+ hash +:+ ".".

(** [`Sent ${token.faucetAmount} ${req.params.token}.`] *)
Definition sent_plain (amount : Amount) (token : string) : string :=
  "Sent " +:+ show_amount amount +:+ " " +:+ token +:+ ".".

Section Service.
(** The value of [Date.now()] during the request. *)
Variable now : Z.
(** The answer of the chain to each call. *)
Variable rpc : ChainCall → ChainOutcome.

(** Start a chain call: it is logged, and it either yields the hash of
    the pending transaction or throws. *)
Definition chain (call : ChainCall) : Eff string :=
  λ w, let w' := {| sentMemory := sentMemory w;
                    chainCalls := chainCalls w ++ [call] |} in
       match rpc call with
       | Submitted hash => (Normal hash, w')
       | Rejected message => (Abrupt message, w')
       end.

(** [async function sentNativeTokens(tokenName, address)] *)
Definition sentNativeTokens (tokenName address : string) : Eff string :=
  try_catch
    (let wallet :=
       if decide (tokenName = "ETH") then Some ethersWallet
       else if decide (tokenName = "EDG") then Some edgWallet
       else None in
     match wallet with
     | Some wallet =>
         value ← registry_amount tokenName;
         hash ← chain (SendTransaction wallet address value);
         amount ← registry_amount tokenName;
         mret (sent_with_hash amount tokenName hash)
     | None => mret "Token unsupported."
     end)
    (λ message, mret message).

(** [app.post('/faucet/:token/:address', async (req, res) => ...)], with
    the registry lookup of the contract branch as a parameter; the result
    is the text handed to [res.send].  The test [token in supportedTokens]
    is membership among the own keys, which is what the code computes for
    an ordinary token. *)
Definition postFaucetWith (lookup : string → option TokenConfig)
    (token address : string) : Eff string :=
  lastSent ← getLastSentTimeStamp address token;
  if cooled_down now lastSent then
    setLastSentTimeStamp now address token;;
    if bool_decide (token ∈ dom supportedTokens) then
      if valid_address address then
        if bool_decide (token ∈ ["ETH"; "EDG"]) then
          mes ← sentNativeTokens token address;
          mret mes
        else
          match lookup token with
          | Some {| faucetAmount := amount; contract := Some handle |} =>
              try_catch
                (chain (ContractTransfer handle address amount);;
                 mret (sent_plain amount token))
                (λ message, mret message)
          | _ => mret (unsupported_token token)
          end
      else mret invalid_address
    else mret (unsupported_token token)
  else mret already_received.

Definition postFaucet : string → string → Eff string :=
  postFaucetWith getContract.
End Service.

(** ** Earlier revisions of the same file

    [src/unnamed/part_001] and [src/index.ts] hold earlier revisions of the
    service.  Only the places where they differ from the definitions above
    are embedded. *)

Module Rev1.
(** [src/unnamed/part_001], [getLastSentTimeStamp]:
    [if (sentMemory[address][tokenName]) ...] with no test of
    [sentMemory[address]]; reading a property of [undefined] throws a
    [TypeError].  The text of its message depends on the engine; the one
    below is the older wording of V8 and only stands for it. *)
Definition getLastSentTimeStamp (address tokenName : string) : Eff (option Z) :=
  m ← read_memory;
  match m !! address with
  | Some data =>
      match data !! tokenName with
      | Some stamp => if truthy stamp then mret (Some stamp) else mret None
      | None => mret None
      end
  | None => throw ("Cannot read property '" +:+ tokenName +:+ "' of undefined")
  end.
End Rev1.

Module Rev0.
(** [src/index.ts], first revision: a registry without [EDG] whose [ETH]
    amount is the string [0x1312D00]. *)
Definition supportedTokens : gmap string TokenConfig :=
  list_to_map
    [ ("ETH",  {| faucetAmount := HexString "0x1312D00"; contract := None |});
      ("USDC", {| faucetAmount := HexString "0x1312D00"; contract := Some jhkToken |}) ].

Definition getContract (tokenName : string) : option TokenConfig :=
  if decide (tokenName = "USDC") then supportedTokens !! "USDC" else None.

(** [ethers.utils.parseEther("1.0")] *)
Definition parseEther_1_0 : Amount := BigNumber (10 ^ 18)%N.

Section Service.
Variable rpc : ChainCall → ChainOutcome.

(** The handler of that revision: no cooldown, no [try]/[catch]; the
    amounts in the answers are the literals [1.0] and [20]. *)
Definition postFaucet (token address : string) : Eff string :=
  if bool_decide (token ∈ dom supportedTokens) then
    if valid_address address then
      if decide (token = "ETH") then
        hash ← chain rpc (SendTransaction ethersWallet address parseEther_1_0);
        mret ("Sent 1 " +:+ token +:+ " TX hash: " +:+ hash +:+ ".")
      else
        match getContract token with
        | Some {| faucetAmount := amount; contract := Some handle |} =>
            chain rpc (ContractTransfer handle address amount);;
            mret ("Sent 20 " +:+ token +:+ ".")
        | Some {| contract := None |} =>
            throw "Cannot read property 'transfer' of undefined"
        | None => mret (unsupported_token token)
        end
    else mret invalid_address
  else mret "Error".
End Service.
End Rev0.

(** ** Derived notions used in the statements *)

(** What [getLastSentTimeStamp] reads in a store: the entry, when it is
    there and truthy (the read of the code, for ordinary names in an
    ordinary store). *)
Definition recorded (m : SentMemory) (address token : string) : option Z :=
  match entry m address token with
  | Some stamp => if truthy stamp then Some stamp else None
  | None => None
  end.

(** The store after [setLastSentTimeStamp] at clock value [now]. *)
Definition record (now : Z) (address token : string) (m : SentMemory) : SentMemory :=
  <[address := <[token := now]> (default ∅ (m !! address))]> m.

(** The process state after the handler has recorded the request. *)
Definition recorded_world (now : Z) (address token : string) (w : World) : World :=
  {| sentMemory := record now address token (sentMemory w);
     chainCalls := chainCalls w |}.

(** The process state once one more chain call is logged. *)
Definition logged (call : ChainCall) (w : World) : World :=
  {| sentMemory := sentMemory w; chainCalls := chainCalls w ++ [call] |}.

(** The answer of a [try]/[catch] around one chain call: [text] when the
    call is acknowledged with [hash], the error's message otherwise. *)
Definition answer_of (outcome : ChainOutcome) (text : string → string) : string :=
  match outcome with
  | Submitted hash => text hash
  | Rejected message => message
  end.

(** The wallet that [sentNativeTokens] picks for a native symbol. *)
Definition wallet_for (token : string) : Wallet :=
  if decide (token = "ETH") then ethersWallet else edgWallet.

(** Age of a stamp at clock value [now]. *)
Definition age (now stamp : Z) : Z := now - stamp.

(** The five ways in which the handler of [part_000] can serve a request
    made at clock value [now] in state [w], with the answer and the state
    it leaves. *)
Inductive Handled (now : Z) (rpc : ChainCall → ChainOutcome)
    (token address : string) (w : World) : Completion string * World → Prop :=
| handled_cooling :
    cooled_down now (recorded (sentMemory w) address token) = false →
    Handled now rpc token address w (Normal already_received, w)
| handled_unsupported :
    cooled_down now (recorded (sentMemory w) address token) = true →
    token ∉ dom supportedTokens →
    Handled now rpc token address w
      (Normal (unsupported_token token), recorded_world now address token w)
| handled_invalid :
    cooled_down now (recorded (sentMemory w) address token) = true →
    token ∈ dom supportedTokens →
    valid_address address = false →
    Handled now rpc token address w
      (Normal invalid_address, recorded_world now address token w)
| handled_native config :
    cooled_down now (recorded (sentMemory w) address token) = true →
    valid_address address = true →
    token ∈ ["ETH"; "EDG"] →
    supportedTokens !! token = Some config →
    Handled now rpc token address w
      (let call := SendTransaction (wallet_for token) address (faucetAmount config) in
       (Normal (answer_of (rpc call) (sent_with_hash (faucetAmount config) token)),
        logged call (recorded_world now address token w)))
| handled_contract config handle :
    cooled_down now (recorded (sentMemory w) address token) = true →
    valid_address address = true →
    token = "USDC" →
    supportedTokens !! token = Some config →
    contract config = Some handle →
    Handled now rpc token address w
      (let call := ContractTransfer handle address (faucetAmount config) in
       (Normal (answer_of (rpc call) (λ _, sent_plain (faucetAmount config) token)),
        logged call (recorded_world now address token w))).

(** ** Sample requests *)

Definition addrA : string := "0xAAAAAAAAAAAAAAAAAAAAAAAAAAAAAAAAAAAAAAAA".

Definition t0 : Z := 1700000000000.

Definition world0 : World := {| sentMemory := ∅; chainCalls := [] |}.

(** A state in which [addrA] was recorded for [token] at [t0]. *)
Definition world_sent (token : string) : World :=
  {| sentMemory := {[addrA := {[token := t0]}]}; chainCalls := [] |}.

(** A chain that acknowledges every call with the given hash. *)
Definition acknowledge (hash : string) : ChainCall → ChainOutcome :=
  λ _, Submitted hash.

(** A chain that refuses every call. *)
Definition refuse : ChainCall → ChainOutcome :=
  λ _, Rejected "insufficient funds".

(** ** The process as a sequence of events

    Express hands the requests to the handler one at a time and the timer
    runs the sweep in between; the handler reads and writes [sentMemory]
    before its first [await], so that each event acts on the store in one
    piece. *)

Inductive Event :=
| Request (at_ms : Z) (token address : string)
| Sweep (at_ms : Z).

Definition event_time (e : Event) : Z :=
  match e with
  | Request at_ms _ _ => at_ms
  | Sweep at_ms => at_ms
  end.

Definition is_request (e : Event) : bool :=
  match e with
  | Request _ _ _ => true
  | Sweep _ => false
  end.

(** One event of [part_000]: [app.post('/faucet/:token/:address', ...)] or
    the callback of [setInterval]. *)
Definition serve_event (rpc : ChainCall → ChainOutcome) (w : World) (e : Event) : World :=
  match e with
  | Request at_ms token address => (postFaucet at_ms rpc token address w).2
  | Sweep at_ms => (sweep_callback at_ms w).2
  end.

Definition serve (rpc : ChainCall → ChainOutcome) (events : list Event) (w : World) : World :=
  fold_left (serve_event rpc) events w.

(** ** Ordinary names

    The string-keyed property names of [Object.prototype] (ECMAScript,
    with the legacy members of Annex B).  For every other name, reading
    [obj[name]] from an object literal and testing [name in obj] look at
    the own properties of [obj] only. *)
Definition object_prototype_names : list string :=
  [ "constructor"; "hasOwnProperty"; "isPrototypeOf"; "propertyIsEnumerable";
    "toLocaleString"; "toString"; "valueOf"; "__proto__";
    "__defineGetter__"; "__defineSetter__"; "__lookupGetter__";
    "__lookupSetter__" ].

Definition ordinary (name : string) : Prop := name ∉ object_prototype_names.

(** A store whose prototype is still [Object.prototype]: nothing was ever
    recorded under the address [__proto__] (the assignment
    [sentMemory['__proto__'] = ...] would replace the prototype). *)
Definition ordinary_store (m : SentMemory) : Prop := "__proto__" ∉ dom m.

(** A request whose token and address are ordinary names; a sweep. *)
Definition ordinary_event (e : Event) : Prop :=
  match e with
  | Request _ token address => ordinary token ∧ ordinary address
  | Sweep _ => True
  end.

(** The characters of the class [[a-fA-F0-9]]. *)
Definition hex_chars : list ascii :=
  String.list_ascii_of_string "0123456789abcdefABCDEF".

(** ** The handler of [src/unnamed/part_001]

    Its registry and its [getContract] (lines 58-76) are those of the first
    revision of [src/index.ts], text for text; its store functions are
    [Rev1.getLastSentTimeStamp] and [setLastSentTimeStamp]. *)
Module Rev1Handler.
Definition already_received : string := "Have already recieved tokens in last 24".

Section Service.
Variable now : Z.
Variable rpc : ChainCall → ChainOutcome.

(** [app.post('/faucet/:token/:address', ...)], lines 109-139: the
    cooldown of [part_000], around the dispatch of [Rev0], with no
    [try]/[catch]. *)
Definition postFaucet (token address : string) : Eff string :=
  lastSent ← Rev1.getLastSentTimeStamp address token;
  if cooled_down now lastSent then
    setLastSentTimeStamp now address token;;
    if bool_decide (token ∈ dom Rev0.supportedTokens) then
      if valid_address address then
        if decide (token = "ETH") then
          hash ← chain rpc (SendTransaction ethersWallet address Rev0.parseEther_1_0);
          mret ("Sent 1 " +:+ token +:+ " TX hash: " +:+ hash +:+ ".")
        else
          match Rev0.getContract token with
          | Some {| faucetAmount := amount; contract := Some handle |} =>
              chain rpc (ContractTransfer handle address amount);;
              mret ("Sent 20 " +:+ token +:+ ".")
          | Some {| contract := None |} =>
              throw "Cannot read property 'transfer' of undefined"
          | None => mret (unsupported_token token)
          end
      else mret invalid_address
    else mret (unsupported_token token)
  else mret already_received.
End Service.
End Rev1Handler.

(** * Properties *)

(** ** The store operations as state transformers *)

Lemma getLastSentTimeStamp_run address token (w : World) :
  getLastSentTimeStamp address token w
  = (Normal (recorded (sentMemory w) address token), w).
Proof.
  unfold getLastSentTimeStamp, recorded, entry, mbind, eff_bind, read_memory.
  destruct (sentMemory w !! address) as [data|]; simpl; [|done].
  destruct (data !! token) as [stamp|]; simpl; [|done].
  by destruct (truthy stamp).
Qed.

Lemma setLastSentTimeStamp_run now address token (w : World) :
  setLastSentTimeStamp now address token w
  = (Normal tt, recorded_world now address token w).
Proof.
  unfold setLastSentTimeStamp, recorded_world, record, mbind, eff_bind,
    read_memory, write_memory.
  by destruct (sentMemory w !! address) as [data|].
Qed.

Lemma entry_record_eq now address token (m : SentMemory) :
  entry (record now address token m) address token = Some now.
Proof.
  unfold entry, record. rewrite lookup_insert_eq. simpl.
  by rewrite lookup_insert_eq.
Qed.

Lemma entry_record_ne now address token address' token' (m : SentMemory) :
  (address, token) ≠ (address', token') →
  entry (record now address token m) address' token' = entry m address' token'.
Proof.
  intros Hne. unfold entry, record.
  destruct (decide (address = address')) as [->|Ha].
  - rewrite lookup_insert_eq. simpl.
    rewrite lookup_insert_ne by congruence.
    destruct (m !! address') as [data|]; simpl; [done|].
    apply lookup_empty.
  - by rewrite lookup_insert_ne.
Qed.

Lemma recorded_Some (m : SentMemory) address token stamp :
  recorded m address token = Some stamp ↔
  entry m address token = Some stamp ∧ stamp ≠ 0.
Proof.
  unfold recorded, truthy.
  destruct (entry m address token) as [s|].
  - destruct (Z.eqb_spec s 0) as [Hz|Hz]; simpl; split.
    + discriminate.
    + intros [[= ->] Hnz]. contradiction.
    + intros [= ->]. by split.
    + by intros [-> _].
  - split; [discriminate|]. by intros [? _].
Qed.

(** ** The sweep, entry by entry *)

Lemma sweep_tokens_fold now (start data : SentData) token :
  map_fold (λ (token : string) (stamp : Z) (acc : SentData),
              if bool_decide (stamp ≤ now - cooldown_ms)
              then delete token acc else acc) start data !! token
  = match data !! token with
    | Some stamp =>
        if bool_decide (stamp ≤ now - cooldown_ms) then None else start !! token
    | None => start !! token
    end.
Proof.
  revert token.
  apply (map_fold_weak_ind (λ (acc data : SentData), ∀ token,
    acc !! token = match data !! token with
                   | Some stamp =>
                       if bool_decide (stamp ≤ now - cooldown_ms)
                       then None else start !! token
                   | None => start !! token
                   end)).
  - intros token. by rewrite lookup_empty.
  - intros i x m r Hi IH token.
    destruct (decide (i = token)) as [->|Hne].
    + rewrite lookup_insert_eq. specialize (IH token). rewrite Hi in IH.
      case_bool_decide; [apply lookup_delete_eq|done].
    + rewrite lookup_insert_ne by done. rewrite <- IH.
      case_bool_decide; [by apply lookup_delete_ne|done].
Qed.

Lemma lookup_sweep_tokens now (data : SentData) token :
  sweep_tokens now data !! token
  = match data !! token with
    | Some stamp =>
        if bool_decide (stamp ≤ now - cooldown_ms) then None else Some stamp
    | None => None
    end.
Proof.
  unfold sweep_tokens. rewrite sweep_tokens_fold.
  by destruct (data !! token) as [stamp|] eqn:E.
Qed.

Lemma sweep_fold now (start m : SentMemory) address :
  map_fold (λ (address : string) (data : SentData) (acc : SentMemory),
              <[address := sweep_tokens now data]> acc) start m !! address
  = match m !! address with
    | Some data => Some (sweep_tokens now data)
    | None => start !! address
    end.
Proof.
  revert address.
  apply (map_fold_weak_ind (λ (acc m : SentMemory), ∀ address,
    acc !! address = match m !! address with
                     | Some data => Some (sweep_tokens now data)
                     | None => start !! address
                     end)).
  - intros address. by rewrite lookup_empty.
  - intros i x m' r Hi IH address.
    destruct (decide (i = address)) as [->|Hne].
    + by rewrite !lookup_insert_eq.
    + rewrite !lookup_insert_ne by done. apply IH.
Qed.

Lemma lookup_sweep now (m : SentMemory) address :
  sweep now m !! address = sweep_tokens now <$> m !! address.
Proof.
  unfold sweep. rewrite sweep_fold. by destruct (m !! address).
Qed.

Lemma entry_sweep now (m : SentMemory) address token :
  entry (sweep now m) address token
  = match entry m address token with
    | Some stamp =>
        if bool_decide (cooldown_ms ≤ age now stamp) then None else Some stamp
    | None => None
    end.
Proof.
  unfold entry, age. rewrite lookup_sweep.
  destruct (m !! address) as [data|]; simpl; [|done].
  rewrite lookup_sweep_tokens.
  destruct (data !! token) as [stamp|]; [|done].
  repeat case_bool_decide; (done || lia).
Qed.

(** The timer callback rewrites the cooldown memory and nothing else. *)
Lemma sweep_callback_run now (w : World) :
  sweep_callback now w
  = (Normal tt, {| sentMemory := sweep now (sentMemory w);
                   chainCalls := chainCalls w |}).
Proof. reflexivity. Qed.

Lemma sweep_empty now : sweep now ∅ = ∅.
Proof. apply map_eq. intros address. by rewrite lookup_sweep, !lookup_empty. Qed.

(** ** The registry and the address pattern *)

Lemma supportedTokens_lookup token :
  supportedTokens !! token
  = if decide (token = "ETH")
    then Some {| faucetAmount := parseEther_5_0; contract := None |}
    else if decide (token = "USDC")
    then Some {| faucetAmount := HexString "0x25AF080"; contract := Some jhkToken |}
    else if decide (token = "EDG")
    then Some {| faucetAmount := parseEther_5_0; contract := None |}
    else None.
Proof.
  unfold supportedTokens. simpl.
  repeat (rewrite lookup_insert; case_decide; [subst; by repeat case_decide|]).
  rewrite lookup_empty. by repeat case_decide.
Qed.

Lemma in_supportedTokens token :
  token ∈ dom supportedTokens ↔ token = "ETH" ∨ token = "USDC" ∨ token = "EDG".
Proof.
  rewrite elem_of_dom, supportedTokens_lookup. split.
  - intros Hsome. repeat case_decide; eauto.
    by destruct Hsome as [config [=]].
  - intros [-> | [-> | ->]]; repeat case_decide; by eauto.
Qed.

Lemma all_hex_Forall digits :
  all_hex digits = true ↔
  Forall (λ c, is_hex_digit c = true) (String.list_ascii_of_string digits).
Proof.
  induction digits as [|c rest IH]; simpl.
  - split; [constructor|done].
  - rewrite andb_true_iff, Forall_cons. by rewrite IH.
Qed.

(** [valid_address] is the pattern [^0x[a-fA-F0-9]{40}$]: the two
    characters [0x], then exactly forty hexadecimal digits, and nothing
    else. *)
Lemma valid_address_pattern address :
  valid_address address = true ↔
  ∃ digits, address = "0x" +:+ digits
            ∧ String.length digits = 40%nat
            ∧ Forall (λ c, is_hex_digit c = true) (String.list_ascii_of_string digits).
Proof.
  split.
  - destruct address as [|a [|b digits]]; simpl; try done.
    + destruct a as [[] [] [] [] [] [] [] []]; done.
    + destruct a as [[] [] [] [] [] [] [] []]; try done.
      destruct b as [[] [] [] [] [] [] [] []]; try done.
      rewrite andb_true_iff, all_hex_Forall. intros [Hlen Hhex].
      exists digits. split; [done|]. split; [|done].
      apply Z.eqb_eq in Hlen. apply Nat2Z.inj. exact Hlen.
  - intros (digits & -> & Hlen & Hhex). simpl.
    rewrite andb_true_iff, all_hex_Forall. split; [|done].
    apply Z.eqb_eq. exact (f_equal Z.of_nat Hlen).
Qed.

(** ** The handler, branch by branch *)

Lemma bind_run {A B} (c : Eff A) (k : A → Eff B) (w : World) :
  (c ≫= k) w = match c w with
               | (Normal a, w') => k a w'
               | (Abrupt message, w') => (Abrupt message, w')
               end.
Proof. reflexivity. Qed.

Lemma chain_run rpc call (w : World) :
  chain rpc call w
  = (match rpc call with
     | Submitted hash => Normal hash
     | Rejected message => Abrupt message
     end, logged call w).
Proof. unfold chain, logged. by destruct (rpc call). Qed.

Lemma native_symbol token :
  token ∈ ["ETH"; "EDG"] ↔ token = "ETH" ∨ token = "EDG".
Proof. rewrite !elem_of_cons, elem_of_nil. tauto. Qed.

Lemma sentNativeTokens_run rpc token address config (w : World) :
  token ∈ ["ETH"; "EDG"] →
  supportedTokens !! token = Some config →
  sentNativeTokens rpc token address w
  = let call := SendTransaction (wallet_for token) address (faucetAmount config) in
    (Normal (answer_of (rpc call) (sent_with_hash (faucetAmount config) token)),
     logged call w).
Proof.
  intros Hnative Hconfig. unfold sentNativeTokens, try_catch, wallet_for.
  assert (∀ w', registry_amount token w' = (Normal (faucetAmount config), w'))
    as Hamount by (intros w'; unfold registry_amount; by rewrite Hconfig).
  apply native_symbol in Hnative as [->| ->]; repeat case_decide; try done;
    rewrite bind_run, Hamount, bind_run, chain_run;
    (destruct (rpc _) as [hash|message]; simpl; [|done]);
    by rewrite bind_run, Hamount.
Qed.

Lemma sentNativeTokens_other rpc token address (w : World) :
  token ∉ ["ETH"; "EDG"] →
  sentNativeTokens rpc token address w = (Normal "Token unsupported.", w).
Proof.
  rewrite native_symbol. intros Hother.
  unfold sentNativeTokens, try_catch. repeat case_decide; naive_solver.
Qed.

Section Branches.
Variable now : Z.
Variable rpc : ChainCall → ChainOutcome.
Variable lookup : string → option TokenConfig.
Variables token address : string.
Variable w : World.

Lemma postFaucetWith_cooling :
  cooled_down now (recorded (sentMemory w) address token) = false →
  postFaucetWith now rpc lookup token address w = (Normal already_received, w).
Proof.
  intros Hcool. unfold postFaucetWith.
  by rewrite bind_run, getLastSentTimeStamp_run, Hcool.
Qed.

Lemma postFaucetWith_unsupported :
  cooled_down now (recorded (sentMemory w) address token) = true →
  token ∉ dom supportedTokens →
  postFaucetWith now rpc lookup token address w
  = (Normal (unsupported_token token), recorded_world now address token w).
Proof.
  intros Hcool Hout. unfold postFaucetWith.
  rewrite bind_run, getLastSentTimeStamp_run, Hcool.
  rewrite bind_run, setLastSentTimeStamp_run.
  by rewrite bool_decide_eq_false_2.
Qed.

Lemma postFaucetWith_invalid :
  cooled_down now (recorded (sentMemory w) address token) = true →
  token ∈ dom supportedTokens →
  valid_address address = false →
  postFaucetWith now rpc lookup token address w
  = (Normal invalid_address, recorded_world now address token w).
Proof.
  intros Hcool Hin Hbad. unfold postFaucetWith.
  rewrite bind_run, getLastSentTimeStamp_run, Hcool.
  rewrite bind_run, setLastSentTimeStamp_run.
  by rewrite bool_decide_eq_true_2, Hbad.
Qed.

Lemma postFaucetWith_native config :
  cooled_down now (recorded (sentMemory w) address token) = true →
  valid_address address = true →
  token ∈ ["ETH"; "EDG"] →
  supportedTokens !! token = Some config →
  postFaucetWith now rpc lookup token address w
  = let call := SendTransaction (wallet_for token) address (faucetAmount config) in
    (Normal (answer_of (rpc call) (sent_with_hash (faucetAmount config) token)),
     logged call (recorded_world now address token w)).
Proof.
  intros Hcool Hgood Hnative Hconfig. unfold postFaucetWith.
  rewrite bind_run, getLastSentTimeStamp_run, Hcool.
  rewrite bind_run, setLastSentTimeStamp_run.
  rewrite bool_decide_eq_true_2 by (apply elem_of_dom; eauto).
  rewrite Hgood, bool_decide_eq_true_2 by done.
  by rewrite bind_run, (sentNativeTokens_run _ _ _ config).
Qed.

Lemma postFaucetWith_contract config handle :
  cooled_down now (recorded (sentMemory w) address token) = true →
  valid_address address = true →
  token ∈ dom supportedTokens →
  token ∉ ["ETH"; "EDG"] →
  lookup token = Some config →
  contract config = Some handle →
  postFaucetWith now rpc lookup token address w
  = let call := ContractTransfer handle address (faucetAmount config) in
    (Normal (answer_of (rpc call) (λ _, sent_plain (faucetAmount config) token)),
     logged call (recorded_world now address token w)).
Proof.
  intros Hcool Hgood Hin Hother Hconfig Hhandle. unfold postFaucetWith.
  rewrite bind_run, getLastSentTimeStamp_run, Hcool.
  rewrite bind_run, setLastSentTimeStamp_run.
  rewrite bool_decide_eq_true_2, Hgood, bool_decide_eq_false_2 by done.
  rewrite Hconfig. destruct config as [amount [h|]]; simpl in *; [|done].
  destruct h, handle. unfold try_catch.
  rewrite bind_run, chain_run. by destruct (rpc _).
Qed.
End Branches.

Lemma getContract_USDC :
  getContract "USDC"
  = Some {| faucetAmount := HexString "0x25AF080"; contract := Some jhkToken |}.
Proof. reflexivity. Qed.

Lemma getContract_other token : token ≠ "USDC" → getContract token = None.
Proof. intros Hne. unfold getContract. by case_decide. Qed.

(** The handler on a registered contract token, i.e. on [USDC]. *)
Lemma postFaucet_USDC now rpc address (w : World) :
  cooled_down now (recorded (sentMemory w) address "USDC") = true →
  valid_address address = true →
  postFaucet now rpc "USDC" address w
  = let call := ContractTransfer jhkToken address (HexString "0x25AF080") in
    (Normal (answer_of (rpc call) (λ _, sent_plain (HexString "0x25AF080") "USDC")),
     logged call (recorded_world now address "USDC" w)).
Proof.
  intros Hcool Hgood. unfold postFaucet.
  rewrite (postFaucetWith_contract _ _ _ _ _ _
             {| faucetAmount := HexString "0x25AF080"; contract := Some jhkToken |}
             jhkToken);
    first [ done
          | apply in_supportedTokens; by auto
          | rewrite native_symbol; by intros [|] ].
Qed.

(** Every request is served in one of the five ways of [Handled]. *)
Lemma postFaucet_handled now rpc token address (w : World) :
  Handled now rpc token address w (postFaucet now rpc token address w).
Proof.
  unfold postFaucet.
  destruct (cooled_down now (recorded (sentMemory w) address token)) eqn:Hcool;
    [|rewrite postFaucetWith_cooling by done; by constructor].
  destruct (decide (token ∈ dom supportedTokens)) as [Hin|Hout];
    [|rewrite postFaucetWith_unsupported by done; by constructor].
  destruct (valid_address address) eqn:Hgood;
    [|rewrite postFaucetWith_invalid by done; by constructor].
  destruct (decide (token ∈ ["ETH"; "EDG"])) as [Hnative|Hother].
  - destruct (proj1 (elem_of_dom _ _) Hin) as [config Hconfig].
    rewrite (postFaucetWith_native _ _ _ _ _ _ config) by done.
    by apply handled_native.
  - assert (token = "USDC") as ->.
    { apply in_supportedTokens in Hin as [->|[->| ->]]; [|done|];
        exfalso; apply Hother, native_symbol; auto. }
    fold (postFaucet now rpc "USDC" address w).
    rewrite postFaucet_USDC by done.
    by apply (handled_contract _ _ _ _ _
      {| faucetAmount := HexString "0x25AF080"; contract := Some jhkToken |} jhkToken).
Qed.


Lemma cooldown_ms_value : cooldown_ms = 86400000.
Proof. reflexivity. Qed.

Lemma cooled_down_Some now stamp :
  stamp ≠ 0 → cooled_down now (Some stamp) = true ↔ 86400000 ≤ now - stamp.
Proof.
  intros Hnz. unfold cooled_down, truthy.
  destruct (Z.eqb_spec stamp 0) as [|_]; [done|]. simpl.
  rewrite bool_decide_eq_true, cooldown_ms_value. lia.
Qed.

(** ** Ordinary names *)

Lemma valid_address_ordinary address :
  valid_address address = true → ordinary address.
Proof.
  intros (digits & -> & _)%valid_address_pattern. unfold ordinary.
  apply (bool_decide_unpack _). by vm_compute.
Qed.

Lemma registered_ordinary token : token ∈ dom supportedTokens → ordinary token.
Proof.
  intros [->|[->| ->]]%in_supportedTokens; unfold ordinary;
    apply (bool_decide_unpack _); by vm_compute.
Qed.

(** * The claims *)

(** ** C1: the cooldown gate *)




(** ** C2: no failure of the chain leaves the Dispatcher *)

(** C2.  [sentNativeTokens] always returns a text, and when the chain call
    it started threw, that text is the message of the error.  Whenever the
    handler starts a chain call (the native send or the contract
    transfer), it completes normally with a text, and when the call threw,
    that text is the message of the error: no outcome of the chain
    interaction leaves the handler as an exception. *)
Theorem dispatcher_catches now rpc token address (w : World) :
  (∃ text w', sentNativeTokens rpc token address w = (Normal text, w'))
  ∧ (∀ call message,
       chainCalls (sentNativeTokens rpc token address w).2 = chainCalls w ++ [call] →
       rpc call = Rejected message →
       (sentNativeTokens rpc token address w).1 = Normal message)
  ∧ (∀ call,
       chainCalls (postFaucet now rpc token address w).2 = chainCalls w ++ [call] →
       ∃ text, (postFaucet now rpc token address w).1 = Normal text
               ∧ ∀ message, rpc call = Rejected message → text = message).
Proof.
  split; [|split].
  - destruct (decide (token ∈ ["ETH"; "EDG"])) as [Hnative|Hother].
    + assert (is_Some (supportedTokens !! token)) as [config Hconfig].
      { apply elem_of_dom, in_supportedTokens.
        apply native_symbol in Hnative. tauto. }
      rewrite (sentNativeTokens_run _ _ _ config) by done. by eexists _, _.
    + rewrite sentNativeTokens_other by done. by eexists _, _.
  - intros call message Hcalls Hthrown.
    destruct (decide (token ∈ ["ETH"; "EDG"])) as [Hnative|Hother].
    + assert (is_Some (supportedTokens !! token)) as [config Hconfig].
      { apply elem_of_dom, in_supportedTokens.
        apply native_symbol in Hnative. tauto. }
      rewrite (sentNativeTokens_run _ _ _ config) in Hcalls |- * by done.
      simpl in *. apply app_inv_head in Hcalls. injection Hcalls as <-.
      by rewrite Hthrown.
    + rewrite sentNativeTokens_other in Hcalls by done. simpl in Hcalls.
      apply (f_equal length) in Hcalls. rewrite length_app in Hcalls.
      simpl in Hcalls. lia.
  - intros call Hcalls.
    destruct (postFaucet_handled now rpc token address w); simpl in *;
      try (apply (f_equal length) in Hcalls; rewrite length_app in Hcalls;
           simpl in Hcalls; lia);
      apply app_inv_head in Hcalls; injection Hcalls as <-;
      (eexists; split; [reflexivity|]); intros message Hthrown;
      by rewrite Hthrown.
Qed.

Lemma dispatcher_catches_witness :
  chainCalls (postFaucet t0 refuse "USDC" addrA world0).2
  = chainCalls world0 ++ [ContractTransfer jhkToken addrA (HexString "0x25AF080")]
  ∧ refuse (ContractTransfer jhkToken addrA (HexString "0x25AF080"))
    = Rejected "insufficient funds"
  ∧ ∃ text, (postFaucet t0 refuse "USDC" addrA world0).1 = Normal text
            ∧ text = "insufficient funds".
Proof.
  split; [reflexivity|]. split; [reflexivity|].
  destruct (proj2 (proj2 (dispatcher_catches t0 refuse "USDC" addrA world0))
              (ContractTransfer jhkToken addrA (HexString "0x25AF080")) eq_refl)
    as (text & Htext & Hmessage).
  exists text. split; [exact Htext|]. apply Hmessage. reflexivity.
Defined.

(** ** C3: a token that is not in the registry *)

(** C3, as the code has it.  For a token symbol absent from the registry,
    the handler starts no chain call.  When, besides, the token and the
    address are ordinary names and the store is ordinary: if the pair is
    not in its cooldown window the handler answers
    ["Unsupported token {symbol}."], and the request has been recorded
    (the entry for the pair is written before the token is looked at); if
    the pair is in its window the handler answers with the cooldown
    refusal and changes nothing. *)
Theorem unregistered_token now rpc token address (w : World) :
  token ∉ dom supportedTokens →
  let result := postFaucet now rpc token address w in
  chainCalls result.2 = chainCalls w
  ∧ (ordinary_store (sentMemory w) → ordinary token → ordinary address →
     (cooled_down now (recorded (sentMemory w) address token) = true →
        result.1 = Normal ("Unsupported token " +:+ token +:+ ".")
        ∧ entry (sentMemory result.2) address token = Some now)
     ∧ (cooled_down now (recorded (sentMemory w) address token) = false →
          result = (Normal already_received, w))).
Proof.
  intros Hout. simpl.
  destruct (postFaucet_handled now rpc token address w)
    as [Hcool|Hcool _|Hcool Hin _
       |config Hcool _ _ Hconfig|config handle Hcool _ _ Hconfig _]; simpl.
  - split; [done|]. intros _ _ _. split; [congruence|done].
  - rewrite entry_record_eq. split; [done|]. intros _ _ _.
    split; [done|congruence].
  - done.
  - exfalso. apply Hout, elem_of_dom. eauto.
  - exfalso. apply Hout, elem_of_dom. eauto.
Qed.

Lemma DOGE_unregistered : "DOGE" ∉ dom supportedTokens.
Proof. rewrite in_supportedTokens. by intros [|[|]]. Qed.

Lemma unregistered_token_witness :
  ("DOGE" ∉ dom supportedTokens)
  ∧ ordinary_store (sentMemory world0) ∧ ordinary "DOGE" ∧ ordinary addrA
  ∧ cooled_down t0 (recorded (sentMemory world0) addrA "DOGE") = true
  ∧ (postFaucet t0 (acknowledge "0xbeef") "DOGE" addrA world0).1
    = Normal ("Unsupported token " +:+ "DOGE" +:+ ".")
  ∧ entry (sentMemory (postFaucet t0 (acknowledge "0xbeef") "DOGE" addrA world0).2)
      addrA "DOGE" = Some t0.
Proof.
  assert ("DOGE" ∉ dom supportedTokens) as Hout
    by (apply (bool_decide_unpack _); vm_compute; exact I).
  assert (ordinary_store (sentMemory world0)) as Hstore
    by (apply (bool_decide_unpack _); vm_compute; exact I).
  assert (ordinary "DOGE") as Htoken
    by (apply (bool_decide_unpack _); vm_compute; exact I).
  assert (ordinary addrA) as Haddress
    by (apply (bool_decide_unpack _); vm_compute; exact I).
  split; [exact Hout|]. split; [exact Hstore|]. split; [exact Htoken|].
  split; [exact Haddress|]. split; [reflexivity|].
  apply (proj1 (proj2 (unregistered_token t0 (acknowledge "0xbeef") "DOGE" addrA
                         world0 Hout) Hstore Htoken Haddress)).
  reflexivity.
Defined.

(** C3 as stated fails: the first request for [DOGE] leaves a cooldown
    entry for the pair, and its answer is not ["Token unsupported."]. *)
Lemma unregistered_token_counterexample :
  ("DOGE" ∉ dom supportedTokens)
  ∧ entry (sentMemory world0) addrA "DOGE" = None
  ∧ entry (sentMemory (postFaucet t0 (acknowledge "0xbeef") "DOGE" addrA world0).2)
      addrA "DOGE" = Some t0
  ∧ entry (sentMemory (postFaucet t0 (acknowledge "0xbeef") "DOGE" addrA world0).2)
      addrA "DOGE" ≠ None
  ∧ (postFaucet t0 (acknowledge "0xbeef") "DOGE" addrA world0).1
    = Normal "Unsupported token DOGE."
  ∧ (postFaucet t0 (acknowledge "0xbeef") "DOGE" addrA world0).1
    ≠ Normal "Token unsupported.".
Proof.
  split; [exact DOGE_unregistered|].
  repeat split; try (vm_compute; reflexivity); vm_compute; discriminate.
Qed.

(** ** C6: the text of a successful dispense *)

(** C6, as the code has it.  When the chain acknowledges the call with
    [hash], a native dispense answers
    ["Sent {amount} {token} TX hash: {hash}."]; a contract dispense answers
    ["Sent {amount} {token}."], with the amount and the symbol and without
    the hash. *)
Theorem success_messages now rpc address (w : World) hash :
  (∀ token config,
     token ∈ ["ETH"; "EDG"] →
     supportedTokens !! token = Some config →
     cooled_down now (recorded (sentMemory w) address token) = true →
     valid_address address = true →
     rpc (SendTransaction (wallet_for token) address (faucetAmount config))
     = Submitted hash →
     (postFaucet now rpc token address w).1
     = Normal ("Sent " +:+ show_amount (faucetAmount config) +:+ " " +:+ token
               +:+ " TX hash: " +:+ hash +:+ "."))
  ∧ (∀ config handle,
       supportedTokens !! "USDC" = Some config →
       contract config = Some handle →
       cooled_down now (recorded (sentMemory w) address "USDC") = true →
       valid_address address = true →
       rpc (ContractTransfer handle address (faucetAmount config)) = Submitted hash →
       (postFaucet now rpc "USDC" address w).1
       = Normal ("Sent " +:+ show_amount (faucetAmount config) +:+ " " +:+ "USDC"
                 +:+ ".")).
Proof.
  split.
  - intros token config Hnative Hconfig Hcool Hgood Hack. unfold postFaucet.
    rewrite (postFaucetWith_native _ _ _ _ _ _ config) by done.
    simpl. by rewrite Hack.
  - intros config handle Hconfig Hhandle Hcool Hgood Hack.
    rewrite supportedTokens_lookup in Hconfig. simpl in Hconfig.
    injection Hconfig as <-. destruct handle.
    rewrite postFaucet_USDC by done. simpl in *. by rewrite Hack.
Qed.

Lemma success_messages_witness :
  (postFaucet t0 (acknowledge "0xbeef") "EDG" addrA world0).1
  = Normal ("Sent " +:+ show_amount parseEther_5_0 +:+ " " +:+ "EDG"
            +:+ " TX hash: " +:+ "0xbeef" +:+ ".")
  ∧ (postFaucet t0 (acknowledge "0xbeef") "USDC" addrA world0).1
    = Normal ("Sent " +:+ show_amount (HexString "0x25AF080") +:+ " " +:+ "USDC"
              +:+ ".").
Proof.
  split.
  - apply (proj1 (success_messages t0 (acknowledge "0xbeef") addrA world0 "0xbeef")
             "EDG" {| faucetAmount := parseEther_5_0; contract := None |});
      solve [reflexivity | apply (bool_decide_unpack _); vm_compute; exact I].
  - apply (proj2 (success_messages t0 (acknowledge "0xbeef") addrA world0 "0xbeef")
             {| faucetAmount := HexString "0x25AF080"; contract := Some jhkToken |}
             jhkToken); reflexivity.
Defined.

(** C6 as stated fails for the contract token: a successful [USDC]
    dispense answers ["Sent 0x25AF080 USDC."], whatever the hash of the
    transaction. *)
Lemma success_messages_counterexample :
  chainCalls (postFaucet t0 (acknowledge "0xbeef") "USDC" addrA world0).2
  = [ContractTransfer jhkToken addrA (HexString "0x25AF080")]
  ∧ (postFaucet t0 (acknowledge "0xbeef") "USDC" addrA world0).1
    = Normal "Sent 0x25AF080 USDC."
  ∧ (postFaucet t0 (acknowledge "0xbeef") "USDC" addrA world0).1
    ≠ Normal "Sent 0x25AF080 USDC TX hash: 0xbeef."
  ∧ (postFaucet t0 (acknowledge "0xcafe") "USDC" addrA world0).1
    = (postFaucet t0 (acknowledge "0xbeef") "USDC" addrA world0).1.
Proof.
  repeat split; try (vm_compute; reflexivity). vm_compute. discriminate.
Qed.

(** ** C7: amount and wallet of a native dispense *)

(** C7.  A native dispense submits one transaction whose value is the
    [faucetAmount] that the registry has for the symbol, signed by the
    wallet of the symbol's chain: [ethersWallet] (on [ethersProvider]) for
    [ETH], [edgWallet] (on [edgProvider]) for [EDG]. *)
Theorem native_amount_and_wallet now rpc token address (w : World) config :
  token ∈ ["ETH"; "EDG"] →
  supportedTokens !! token = Some config →
  cooled_down now (recorded (sentMemory w) address token) = true →
  valid_address address = true →
  ∃ wallet,
    chainCalls (sentNativeTokens rpc token address w).2
    = chainCalls w ++ [SendTransaction wallet address (faucetAmount config)]
    ∧ chainCalls (postFaucet now rpc token address w).2
      = chainCalls w ++ [SendTransaction wallet address (faucetAmount config)]
    ∧ (token = "ETH" → wallet = ethersWallet ∧ provider_of wallet = ethersProvider)
    ∧ (token = "EDG" → wallet = edgWallet ∧ provider_of wallet = edgProvider).
Proof.
  intros Hnative Hconfig Hcool Hgood. exists (wallet_for token).
  unfold postFaucet.
  rewrite (sentNativeTokens_run _ _ _ config) by done.
  rewrite (postFaucetWith_native _ _ _ _ _ _ config) by done.
  split; [done|]. split; [done|].
  split; intros ->; by vm_compute.
Qed.

Lemma native_amount_and_wallet_witness :
  ∃ wallet,
    chainCalls (sentNativeTokens (acknowledge "0xbeef") "EDG" addrA world0).2
    = chainCalls world0 ++ [SendTransaction wallet addrA parseEther_5_0]
    ∧ chainCalls (postFaucet t0 (acknowledge "0xbeef") "EDG" addrA world0).2
      = chainCalls world0 ++ [SendTransaction wallet addrA parseEther_5_0]
    ∧ ("EDG" = "ETH" → wallet = ethersWallet ∧ provider_of wallet = ethersProvider)
    ∧ ("EDG" = "EDG" → wallet = edgWallet ∧ provider_of wallet = edgProvider).
Proof.
  apply (native_amount_and_wallet t0 (acknowledge "0xbeef") "EDG" addrA world0
           {| faucetAmount := parseEther_5_0; contract := None |});
    solve [reflexivity | apply (bool_decide_unpack _); vm_compute; exact I].
Defined.

(** ** C8: an address that fails the pattern *)

(** C8, as the code has it.  For an address that fails
    [^0x[0-9a-fA-F]{40}$] the handler never starts a chain call.  When,
    besides, the token and the address are ordinary names and the store is
    ordinary, its answer is ["Invalid address"] if the pair is not in its
    cooldown window and the token is registered; the two earlier tests
    answer first: the cooldown refusal for a pair in its window, and
    ["Unsupported token {token}."] for an unregistered token. *)
Theorem malformed_address now rpc token address (w : World) :
  valid_address address = false →
  let result := postFaucet now rpc token address w in
  chainCalls result.2 = chainCalls w
  ∧ (ordinary_store (sentMemory w) → ordinary token → ordinary address →
     (cooled_down now (recorded (sentMemory w) address token) = true →
      token ∈ dom supportedTokens →
      result.1 = Normal "Invalid address")
     ∧ (cooled_down now (recorded (sentMemory w) address token) = true →
        token ∉ dom supportedTokens →
        result.1 = Normal ("Unsupported token " +:+ token +:+ "."))
     ∧ (cooled_down now (recorded (sentMemory w) address token) = false →
        result.1 = Normal already_received)).
Proof.
  intros Hbad. simpl.
  destruct (postFaucet_handled now rpc token address w)
    as [Hcool|Hcool Hout|Hcool Hin _
       |config Hcool Hgood _ _|config handle Hcool Hgood _ _ _]; simpl;
    try congruence.
  - split; [done|]. intros _ _ _. repeat split; (done || congruence).
  - split; [done|]. intros _ _ _. repeat split; (done || congruence).
  - split; [done|]. intros _ _ _. repeat split; (done || congruence).
Qed.

Lemma malformed_address_witness :
  valid_address "abc" = false
  ∧ ordinary_store (sentMemory world0) ∧ ordinary "ETH" ∧ ordinary "abc"
  ∧ chainCalls (postFaucet t0 (acknowledge "0xbeef") "ETH" "abc" world0).2
    = chainCalls world0
  ∧ (postFaucet t0 (acknowledge "0xbeef") "ETH" "abc" world0).1
    = Normal "Invalid address".
Proof.
  assert (ordinary_store (sentMemory world0)) as Hstore
    by (apply (bool_decide_unpack _); vm_compute; exact I).
  assert (ordinary "ETH") as Htoken
    by (apply (bool_decide_unpack _); vm_compute; exact I).
  assert (ordinary "abc") as Haddress
    by (apply (bool_decide_unpack _); vm_compute; exact I).
  split; [reflexivity|]. split; [exact Hstore|]. split; [exact Htoken|].
  split; [exact Haddress|].
  pose proof (malformed_address t0 (acknowledge "0xbeef") "ETH" "abc" world0
                eq_refl) as (Hcalls & Hanswers).
  split; [exact Hcalls|].
  apply (proj1 (Hanswers Hstore Htoken Haddress));
    solve [reflexivity | apply (bool_decide_unpack _); vm_compute; exact I].
Defined.

(** C8 as stated fails: with a malformed address and an unregistered token
    the answer is the one for the token; and a second request with the
    same malformed address is answered with the cooldown refusal. *)
Lemma malformed_address_counterexample :
  valid_address "abc" = false
  ∧ (postFaucet t0 (acknowledge "0xbeef") "DOGE" "abc" world0).1
    = Normal "Unsupported token DOGE."
  ∧ (postFaucet t0 (acknowledge "0xbeef") "DOGE" "abc" world0).1
    ≠ Normal "Invalid address"
  ∧ (postFaucet (t0 + 1) (acknowledge "0xbeef") "ETH" "abc"
       (postFaucet t0 (acknowledge "0xbeef") "ETH" "abc" world0).2).1
    ≠ Normal "Invalid address".
Proof.
  repeat split; try (vm_compute; reflexivity); vm_compute; discriminate.
Qed.

(** ** C9: frame of the store operations *)



(** ** C10: the registry lookup of the contract branch *)

(** C10.  [getContract] returns the [USDC] entry of the registry when its
    argument is ['USDC'], and [undefined] for every other string, [ETH]
    and [EDG] among them; a request for [ETH] or [EDG] is served by
    [sentNativeTokens] and its outcome does not depend on the lookup of
    the contract branch. *)
Theorem getContract_only_USDC :
  getContract "USDC" = supportedTokens !! "USDC"
  ∧ getContract "USDC"
    = Some {| faucetAmount := HexString "0x25AF080"; contract := Some jhkToken |}
  ∧ (∀ tokenName, tokenName ≠ "USDC" → getContract tokenName = None)
  ∧ (∀ tokenName, is_Some (getContract tokenName) ↔ tokenName = "USDC")
  ∧ getContract "ETH" = None
  ∧ getContract "EDG" = None
  ∧ (∀ now rpc lookup token address (w : World),
       token ∈ ["ETH"; "EDG"] →
       postFaucetWith now rpc lookup token address w
       = postFaucet now rpc token address w)
  ∧ (∀ now rpc token address (w : World),
       token ∈ ["ETH"; "EDG"] →
       cooled_down now (recorded (sentMemory w) address token) = true →
       valid_address address = true →
       postFaucet now rpc token address w
       = sentNativeTokens rpc token address (recorded_world now address token w)).
Proof.
  split; [reflexivity|]. split; [reflexivity|].
  split; [exact getContract_other|]. split.
  { intros tokenName. split.
    - intros Hsome. destruct (decide (tokenName = "USDC")) as [|Hne]; [done|].
      rewrite getContract_other in Hsome by done. by destruct Hsome.
    - intros ->. by eexists. }
  split; [reflexivity|]. split; [reflexivity|].
  assert (∀ token, token ∈ ["ETH"; "EDG"] → is_Some (supportedTokens !! token))
    as Hregistered.
  { intros token Hnative. apply elem_of_dom, in_supportedTokens.
    apply native_symbol in Hnative. tauto. }
  split.
  - intros now rpc lookup token address w Hnative. unfold postFaucet.
    destruct (Hregistered token Hnative) as [config Hconfig].
    destruct (cooled_down now (recorded (sentMemory w) address token)) eqn:Hcool;
      [|by rewrite !postFaucetWith_cooling].
    destruct (valid_address address) eqn:Hgood.
    + by rewrite !(postFaucetWith_native _ _ _ _ _ _ config).
    + rewrite !postFaucetWith_invalid; try done; apply elem_of_dom; eauto.
  - intros now rpc token address w Hnative Hcool Hgood. unfold postFaucet.
    destruct (Hregistered token Hnative) as [config Hconfig].
    rewrite (postFaucetWith_native _ _ _ _ _ _ config) by done.
    by rewrite (sentNativeTokens_run _ _ _ config).
Qed.

Lemma getContract_only_USDC_witness :
  "DOGE" ≠ "USDC"
  ∧ getContract "DOGE" = None
  ∧ postFaucetWith t0 (acknowledge "0xbeef") (λ _, supportedTokens !! "USDC")
      "ETH" addrA world0
    = postFaucet t0 (acknowledge "0xbeef") "ETH" addrA world0.
Proof.
  destruct getContract_only_USDC
    as (_ & _ & Hother & _ & _ & _ & Hnative & _).
  split; [discriminate|]. split.
  - apply Hother. discriminate.
  - apply Hnative. apply (bool_decide_unpack _). vm_compute. exact I.
Defined.

(** ** The earlier revisions *)

(** In [part_001] the read of a pair whose address has no entry throws
    instead of returning [undefined]. *)
Lemma Rev1_getLastSentTimeStamp_unknown_address address token (w : World) :
  sentMemory w !! address = None →
  Rev1.getLastSentTimeStamp address token w
  = (Abrupt ("Cannot read property '" +:+ token +:+ "' of undefined"), w).
Proof.
  intros Hnone. unfold Rev1.getLastSentTimeStamp.
  rewrite bind_run. simpl. by rewrite Hnone.
Qed.

(** In the first revision of [index.ts] a failure of the chain call leaves
    the handler as an exception, and the value sent for [ETH] is one ether
    whatever the registry says. *)
Lemma Rev0_postFaucet_propagates :
  Rev0.postFaucet refuse "ETH" addrA world0
  = (Abrupt "insufficient funds",
     logged (SendTransaction ethersWallet addrA Rev0.parseEther_1_0) world0).
Proof. reflexivity. Qed.

Lemma Rev0_postFaucet_amount :
  Rev0.supportedTokens !! "ETH"
  = Some {| faucetAmount := HexString "0x1312D00"; contract := None |}
  ∧ Rev0.postFaucet (acknowledge "0xbeef") "ETH" addrA world0
    = (Normal "Sent 1 ETH TX hash: 0xbeef.",
       logged (SendTransaction ethersWallet addrA (BigNumber (10 ^ 18)%N)) world0).
Proof. split; reflexivity. Qed.

(** * Further properties of the code *)

(** ** The store *)

(** For ordinary names in an ordinary store, [getLastSentTimeStamp] returns
    a timestamp exactly when the pair has an entry and that entry is not 0;
    an entry that is 0 reads as [undefined], like a missing one. *)
Theorem read_is_truthy_entry address token (w : World) stamp :
  ordinary_store (sentMemory w) → ordinary address → ordinary token →
  ((getLastSentTimeStamp address token w).1 = Normal (Some stamp)
   ↔ entry (sentMemory w) address token = Some stamp ∧ stamp ≠ 0)
  ∧ ((getLastSentTimeStamp address token w).1 = Normal None
     ↔ entry (sentMemory w) address token = None
       ∨ entry (sentMemory w) address token = Some 0).
Proof.
  intros _ _ _. rewrite getLastSentTimeStamp_run. simpl. split.
  - rewrite <- recorded_Some. split; [by intros [= ->]|by intros ->].
  - unfold recorded, truthy.
    destruct (entry (sentMemory w) address token) as [s|]; [|by split; auto].
    destruct (Z.eqb_spec s 0) as [->|Hnz]; simpl.
    + split; auto.
    + split; [done|]. intros [[=]|[=]]. done.
Qed.

Lemma read_is_truthy_entry_witness :
  ordinary_store (sentMemory (world_sent "ETH")) ∧ ordinary addrA ∧ ordinary "EDG"
  ∧ ((getLastSentTimeStamp addrA "EDG" (world_sent "ETH")).1 = Normal None
     ↔ entry (sentMemory (world_sent "ETH")) addrA "EDG" = None
       ∨ entry (sentMemory (world_sent "ETH")) addrA "EDG" = Some 0).
Proof.
  assert (ordinary_store (sentMemory (world_sent "ETH"))) as Hstore
    by (apply (bool_decide_unpack _); vm_compute; exact I).
  assert (ordinary addrA) as Haddress by (apply (bool_decide_unpack _); vm_compute; exact I).
  assert (ordinary "EDG") as Htoken by (apply (bool_decide_unpack _); vm_compute; exact I).
  split; [exact Hstore|]. split; [exact Haddress|]. split; [exact Htoken|].
  apply (proj2 (read_is_truthy_entry addrA "EDG" (world_sent "ETH") 0
                  Hstore Haddress Htoken)).
Defined.








(** ** The sweep *)

Lemma sweep_tokens_sweep_tokens now1 now2 (data : SentData) :
  now1 ≤ now2 →
  sweep_tokens now2 (sweep_tokens now1 data) = sweep_tokens now2 data.
Proof.
  intros Hle. apply map_eq. intros token. rewrite !lookup_sweep_tokens.
  destruct (data !! token) as [stamp|]; [|done].
  repeat case_bool_decide; (done || lia).
Qed.

(** A sweep after an earlier sweep leaves what the later one alone leaves;
    in particular a sweep repeated at the same clock value changes
    nothing. *)
Theorem sweep_after_sweep now1 now2 (m : SentMemory) :
  now1 ≤ now2 →
  sweep now2 (sweep now1 m) = sweep now2 m
  ∧ sweep now1 (sweep now1 m) = sweep now1 m.
Proof.
  intros Hle.
  assert (∀ a b, a ≤ b → sweep b (sweep a m) = sweep b m) as Hcompose.
  { intros a b Hab. apply map_eq. intros address. rewrite !lookup_sweep.
    destruct (m !! address) as [data|]; simpl; [|done].
    by rewrite sweep_tokens_sweep_tokens. }
  split; apply Hcompose; lia.
Qed.

Lemma sweep_after_sweep_witness :
  t0 ≤ t0 + 86400000
  ∧ sweep (t0 + 86400000) (sweep t0 (sentMemory (world_sent "ETH")))
    = sweep (t0 + 86400000) (sentMemory (world_sent "ETH")).
Proof.
  split; [unfold t0; lia|].
  apply (sweep_after_sweep t0 (t0 + 86400000) (sentMemory (world_sent "ETH"))).
  unfold t0. lia.
Defined.

(** In an ordinary store the sweep deletes tokens, never addresses: every
    address of the store is still a key afterwards, possibly of an empty
    object. *)
Theorem sweep_keeps_addresses now (m : SentMemory) :
  ordinary_store m →
  dom (sweep now m) = dom m
  ∧ (∀ address data, m !! address = Some data →
       (∀ token stamp, data !! token = Some stamp → 86400000 ≤ now - stamp) →
       sweep now m !! address = Some ∅).
Proof.
  intros _. split.
  - apply set_eq. intros address.
    by rewrite !elem_of_dom, lookup_sweep, fmap_is_Some.
  - intros address data Hdata Hold. rewrite lookup_sweep, Hdata. simpl.
    f_equal. apply map_eq. intros token.
    rewrite lookup_sweep_tokens, lookup_empty.
    destruct (data !! token) as [stamp|] eqn:Hstamp; [|done].
    specialize (Hold token stamp Hstamp).
    rewrite bool_decide_eq_true_2; [done|rewrite cooldown_ms_value; lia].
Qed.

Lemma sweep_keeps_addresses_witness :
  ordinary_store (sentMemory (world_sent "ETH"))
  ∧ sentMemory (world_sent "ETH") !! addrA = Some {[ "ETH" := t0 ]}
  ∧ sweep (t0 + 86400000) (sentMemory (world_sent "ETH")) !! addrA = Some ∅.
Proof.
  assert (ordinary_store (sentMemory (world_sent "ETH"))) as Hstore by (apply (bool_decide_unpack _); vm_compute; exact I).
  split; [exact Hstore|]. split; [reflexivity|].
  apply (proj2 (sweep_keeps_addresses (t0 + 86400000)
                  (sentMemory (world_sent "ETH")) Hstore) addrA {[ "ETH" := t0 ]});
    [reflexivity|].
  intros token stamp Hstamp.
  destruct (decide (token = "ETH")) as [->|Hne].
  - rewrite lookup_singleton_eq in Hstamp. injection Hstamp as <-.
    unfold t0. lia.
  - rewrite lookup_singleton_ne in Hstamp by done. discriminate.
Defined.

(** The sweep is scheduled every 86,400,000 ms.  Under an address other
    than [__proto__] it removes the entries whose age is at least 24 hours;
    under every address an entry younger than 24 hours is still there with
    its timestamp and no entry appears; the empty store stays empty. *)
Theorem sweep_evicts_exactly_old now (m : SentMemory) address token :
  sweep_interval_ms = 86400000
  ∧ (∀ stamp, address ≠ "__proto__" →
       entry m address token = Some stamp → 86400000 ≤ now - stamp →
       entry (sweep now m) address token = None)
  ∧ (∀ stamp, entry m address token = Some stamp → now - stamp < 86400000 →
       entry (sweep now m) address token = Some stamp)
  ∧ (entry m address token = None → entry (sweep now m) address token = None)
  ∧ sweep now ∅ = ∅.
Proof.
  split; [reflexivity|].
  rewrite entry_sweep. unfold age. rewrite cooldown_ms_value.
  split; [|split; [|split]].
  - intros stamp _ -> Hold. by rewrite bool_decide_eq_true_2.
  - intros stamp -> Hyoung. rewrite bool_decide_eq_false_2; [done|lia].
  - by intros ->.
  - apply sweep_empty.
Qed.

Lemma sweep_evicts_exactly_old_witness :
  (addrA ≠ "__proto__"
   ∧ entry (sentMemory (world_sent "ETH")) addrA "ETH" = Some t0
   ∧ 86400000 ≤ (t0 + 86400000) - t0
   ∧ entry (sweep (t0 + 86400000) (sentMemory (world_sent "ETH"))) addrA "ETH" = None)
  ∧ (entry (sentMemory (world_sent "ETH")) addrA "ETH" = Some t0
     ∧ (t0 + 86399999) - t0 < 86400000
     ∧ entry (sweep (t0 + 86399999) (sentMemory (world_sent "ETH"))) addrA "ETH"
       = Some t0)
  ∧ (entry (sentMemory (world_sent "ETH")) addrA "EDG" = None
     ∧ entry (sweep t0 (sentMemory (world_sent "ETH"))) addrA "EDG" = None).
Proof.
  split; [|split].
  - split; [discriminate|]. split; [reflexivity|]. split; [unfold t0; lia|].
    apply (proj1 (proj2 (sweep_evicts_exactly_old (t0 + 86400000)
             (sentMemory (world_sent "ETH")) addrA "ETH")) t0);
      [discriminate|reflexivity|unfold t0; lia].
  - split; [reflexivity|]. split; [unfold t0; lia|].
    apply (proj1 (proj2 (proj2 (sweep_evicts_exactly_old (t0 + 86399999)
             (sentMemory (world_sent "ETH")) addrA "ETH"))) t0);
      [reflexivity|unfold t0; lia].
  - split; [reflexivity|].
    apply (proj1 (proj2 (proj2 (proj2 (sweep_evicts_exactly_old t0
             (sentMemory (world_sent "ETH")) addrA "EDG"))))).
    reflexivity.
Defined.

(** ** The address pattern *)

Lemma is_hex_digit_chars c : is_hex_digit c = true ↔ c ∈ hex_chars.
Proof.
  split.
  - intros Hhex. apply (bool_decide_unpack _).
    destruct c as [[] [] [] [] [] [] [] []]; vm_compute in Hhex |- *;
      first [exact I | discriminate].
  - intros Hin. apply (bool_decide_pack _) in Hin.
    destruct c as [[] [] [] [] [] [] [] []]; vm_compute in Hin |- *;
      first [reflexivity | contradiction].
Qed.

(** The address test accepts exactly the strings of 42 characters made of
    [0x] and forty characters among [0-9], [a-f] and [A-F]; in particular
    the empty string, a bare [0x], an upper-case [0X] prefix and a trailing
    character are refused. *)
Theorem address_test_accepts address :
  valid_address address = true ↔
  ∃ digits, address = "0x" +:+ digits
            ∧ String.length address = 42%nat
            ∧ Forall (λ c, c ∈ hex_chars) (String.list_ascii_of_string digits).
Proof.
  rewrite valid_address_pattern. split.
  - intros (digits & -> & Hlen & Hhex). exists digits.
    split; [done|]. split; [exact (f_equal (λ n, S (S n)) Hlen)|].
    eapply Forall_impl; [exact Hhex|]. intros c. apply is_hex_digit_chars.
  - intros (digits & -> & Hlen & Hhex). exists digits.
    split; [done|].
    change (S (S (String.length digits)) = S (S 40)) in Hlen.
    split; [by injection Hlen|].
    eapply Forall_impl; [exact Hhex|]. intros c. apply is_hex_digit_chars.
Qed.

(** ** One request *)

(** A request appends at most one chain call to the log and removes
    none. *)
Theorem request_logs_at_most_one_call now rpc token address (w : World) :
  ∃ calls : list ChainCall,
    chainCalls (postFaucet now rpc token address w).2 = chainCalls w ++ calls
    ∧ (length calls ≤ 1)%nat.
Proof.
  destruct (postFaucet_handled now rpc token address w); simpl;
    first [ exists []; split; [by rewrite app_nil_r|simpl; lia]
          | eexists [_]; split; [reflexivity|simpl; lia] ].
Qed.

(** For an ordinary token and address in an ordinary store, a request
    touches the entry of its own pair only: every other entry of the store
    is as before, and its own entry is the clock value when the pair had
    cooled down and is as before when it had not. *)
Theorem request_store_frame now rpc token address (w : World) :
  ordinary_store (sentMemory w) → ordinary token → ordinary address →
  let after := (postFaucet now rpc token address w).2 in
  (∀ address' token', (address, token) ≠ (address', token') →
     entry (sentMemory after) address' token' = entry (sentMemory w) address' token')
  ∧ entry (sentMemory after) address token
    = if cooled_down now (recorded (sentMemory w) address token)
      then Some now else entry (sentMemory w) address token.
Proof.
  intros _ _ _. simpl.
  destruct (postFaucet_handled now rpc token address w) as [Hcool|Hcool ?|Hcool ? ?
    |config Hcool ? ? ?|config handle Hcool ? ? ? ?]; simpl; rewrite Hcool;
    (split; [intros address' token' Hne|]);
    first [done | by apply entry_record_ne | apply entry_record_eq].
Qed.

Lemma request_store_frame_witness :
  ordinary_store (sentMemory (world_sent "EDG")) ∧ ordinary "ETH" ∧ ordinary addrA
  ∧ (addrA, "ETH") ≠ (addrA, "EDG")
  ∧ entry (sentMemory (postFaucet (t0 + 5) refuse "ETH" addrA (world_sent "EDG")).2)
      addrA "EDG"
    = entry (sentMemory (world_sent "EDG")) addrA "EDG".
Proof.
  assert (ordinary_store (sentMemory (world_sent "EDG"))) as Hstore by (apply (bool_decide_unpack _); vm_compute; exact I).
  assert (ordinary "ETH") as Htoken by (apply (bool_decide_unpack _); vm_compute; exact I).
  assert (ordinary addrA) as Haddress by (apply (bool_decide_unpack _); vm_compute; exact I).
  split; [exact Hstore|]. split; [exact Htoken|]. split; [exact Haddress|].
  split; [discriminate|].
  apply (proj1 (request_store_frame (t0 + 5) refuse "ETH" addrA (world_sent "EDG")
                  Hstore Htoken Haddress)).
  discriminate.
Defined.

(** A pair with no entry is never refused for cooldown: with a registered
    token and a well-formed address the request starts exactly one chain
    call, and the pair is recorded at the clock value whatever the chain
    answers. *)
Theorem fresh_pair_is_served now rpc token address (w : World) :
  entry (sentMemory w) address token = None →
  token ∈ dom supportedTokens →
  valid_address address = true →
  let result := postFaucet now rpc token address w in
  (∃ call, chainCalls result.2 = chainCalls w ++ [call]
           ∧ result.1 = Normal (answer_of (rpc call)
                                  (if decide (token = "USDC")
                                   then λ _, sent_plain (HexString "0x25AF080") token
                                   else sent_with_hash parseEther_5_0 token)))
  ∧ entry (sentMemory result.2) address token = Some now.
Proof.
  intros Hfresh Hin Hgood. simpl.
  assert (cooled_down now (recorded (sentMemory w) address token) = true) as Hcool
    by (unfold recorded; by rewrite Hfresh).
  destruct (postFaucet_handled now rpc token address w)
    as [Hc|_ Hout|_ _ Hbad|config _ _ Hnative Hconfig
       |config handle _ _ -> Hconfig Hhandle]; simpl;
    try congruence; try done.
  - rewrite entry_record_eq. split; [|done]. eexists. split; [reflexivity|].
    rewrite supportedTokens_lookup in Hconfig.
    apply native_symbol in Hnative as [->| ->]; simpl in Hconfig;
      injection Hconfig as <-; by repeat case_decide.
  - rewrite entry_record_eq. split; [|done].
    rewrite supportedTokens_lookup in Hconfig. simpl in Hconfig.
    injection Hconfig as <-. destruct handle.
    eexists. split; [reflexivity|]. by repeat case_decide.
Qed.

Lemma fresh_pair_is_served_witness :
  entry (sentMemory world0) addrA "USDC" = None
  ∧ "USDC" ∈ dom supportedTokens
  ∧ valid_address addrA = true
  ∧ entry (sentMemory (postFaucet t0 refuse "USDC" addrA world0).2) addrA "USDC"
    = Some t0.
Proof.
  assert ("USDC" ∈ dom supportedTokens) as Hin
    by (apply (bool_decide_unpack _); vm_compute; exact I).
  split; [reflexivity|]. split; [exact Hin|]. split; [reflexivity|].
  apply (fresh_pair_is_served t0 refuse "USDC" addrA world0);
    [reflexivity|exact Hin|reflexivity].
Defined.

(** The answers of the handler to a request whose token and address are
    ordinary names, in an ordinary store: the cooldown refusal, the two
    validation texts, one of the two success texts, or the message of the
    error that the chain threw. *)
Theorem request_answers now rpc token address (w : World) :
  ordinary_store (sentMemory w) → ordinary token → ordinary address →
  let answer := (postFaucet now rpc token address w).1 in
  answer = Normal already_received
  ∨ answer = Normal ("Unsupported token " +:+ token +:+ ".")
  ∨ answer = Normal "Invalid address"
  ∨ (∃ amount hash, answer = Normal (sent_with_hash amount token hash))
  ∨ (∃ amount, answer = Normal (sent_plain amount token))
  ∨ (∃ call message, rpc call = Rejected message ∧ answer = Normal message).
Proof.
  intros _ _ _. simpl.
  destruct (postFaucet_handled now rpc token address w)
    as [?|? ?|? ? ?|config ? ? ? ?|config handle ? ? ? ? ?]; simpl; auto.
  - destruct (rpc _) as [hash|message] eqn:Hrpc; simpl.
    + do 3 right. left. by eexists _, _.
    + do 5 right. by eexists _, _.
  - destruct (rpc _) as [hash|message] eqn:Hrpc; simpl.
    + do 4 right. left. by eexists.
    + do 5 right. by eexists _, _.
Qed.

Lemma request_answers_witness :
  ordinary_store (sentMemory world0) ∧ ordinary "DOGE" ∧ ordinary addrA
  ∧ ((postFaucet t0 refuse "DOGE" addrA world0).1 = Normal already_received
     ∨ (postFaucet t0 refuse "DOGE" addrA world0).1
       = Normal ("Unsupported token " +:+ "DOGE" +:+ ".")
     ∨ (postFaucet t0 refuse "DOGE" addrA world0).1 = Normal "Invalid address"
     ∨ (∃ amount hash, (postFaucet t0 refuse "DOGE" addrA world0).1
                       = Normal (sent_with_hash amount "DOGE" hash))
     ∨ (∃ amount, (postFaucet t0 refuse "DOGE" addrA world0).1
                  = Normal (sent_plain amount "DOGE"))
     ∨ (∃ call message, refuse call = Rejected message
                        ∧ (postFaucet t0 refuse "DOGE" addrA world0).1
                          = Normal message)).
Proof.
  assert (ordinary_store (sentMemory world0)) as Hstore by (apply (bool_decide_unpack _); vm_compute; exact I).
  assert (ordinary "DOGE") as Htoken by (apply (bool_decide_unpack _); vm_compute; exact I).
  assert (ordinary addrA) as Haddress by (apply (bool_decide_unpack _); vm_compute; exact I).
  split; [exact Hstore|]. split; [exact Htoken|]. split; [exact Haddress|].
  apply (request_answers t0 refuse "DOGE" addrA world0 Hstore Htoken Haddress).
Defined.

(** [sentNativeTokens] does not touch the cooldown memory, and for a name
    other than [ETH] and [EDG] it answers ["Token unsupported."] without a
    chain call. *)
Theorem sentNativeTokens_effects rpc tokenName address (w : World) :
  sentMemory (sentNativeTokens rpc tokenName address w).2 = sentMemory w
  ∧ (tokenName ∉ ["ETH"; "EDG"] →
       sentNativeTokens rpc tokenName address w = (Normal "Token unsupported.", w)).
Proof.
  split; [|apply sentNativeTokens_other].
  destruct (decide (tokenName ∈ ["ETH"; "EDG"])) as [Hnative|Hother].
  - assert (is_Some (supportedTokens !! tokenName)) as [config Hconfig].
    { apply elem_of_dom, in_supportedTokens.
      apply native_symbol in Hnative. tauto. }
    by rewrite (sentNativeTokens_run _ _ _ config).
  - by rewrite sentNativeTokens_other.
Qed.

Lemma sentNativeTokens_effects_witness :
  ("DOGE" ∉ ["ETH"; "EDG"])
  ∧ sentNativeTokens refuse "DOGE" addrA world0 = (Normal "Token unsupported.", world0).
Proof.
  assert ("DOGE" ∉ ["ETH"; "EDG"]) as Hother
    by (apply (bool_decide_unpack _); vm_compute; exact I).
  split; [exact Hother|].
  apply (proj2 (sentNativeTokens_effects refuse "DOGE" addrA world0)), Hother.
Defined.

(** The registry and the two dispatch tests agree on the registered
    tokens (the own keys of [supportedTokens]): a registered token is
    native exactly when it has no contract handle, and every other
    registered token is found by [getContract] with its handle. *)
Theorem registry_agrees_with_dispatch token config :
  supportedTokens !! token = Some config →
  (token ∈ ["ETH"; "EDG"] ↔ contract config = None)
  ∧ (token ∉ ["ETH"; "EDG"] →
       getContract token = Some config ∧ is_Some (contract config)).
Proof.
  rewrite supportedTokens_lookup, native_symbol. unfold getContract.
  intros Hconfig.
  repeat case_decide; subst; try discriminate; injection Hconfig as <-; simpl.
  - split; [tauto|]. intros Hother. exfalso. auto.
  - split; [|by eauto]. split; [by intros [|]|done].
  - split; [tauto|]. intros Hother. exfalso. auto.
Qed.

Lemma registry_agrees_with_dispatch_witness :
  supportedTokens !! "USDC"
  = Some {| faucetAmount := HexString "0x25AF080"; contract := Some jhkToken |}
  ∧ ("USDC" ∉ ["ETH"; "EDG"])
  ∧ getContract "USDC"
    = Some {| faucetAmount := HexString "0x25AF080"; contract := Some jhkToken |}.
Proof.
  assert ("USDC" ∉ ["ETH"; "EDG"]) as Hother
    by (apply (bool_decide_unpack _); vm_compute; exact I).
  split; [reflexivity|]. split; [exact Hother|].
  apply (proj2 (registry_agrees_with_dispatch "USDC"
           {| faucetAmount := HexString "0x25AF080"; contract := Some jhkToken |}
           eq_refl) Hother).
Defined.

(** ** Sequences of requests and sweeps *)

Lemma postFaucet_entry_other now rpc token address (w : World) address' token' :
  (address, token) ≠ (address', token') →
  entry (sentMemory (postFaucet now rpc token address w).2) address' token'
  = entry (sentMemory w) address' token'.
Proof.
  intros Hne.
  destruct (postFaucet_handled now rpc token address w); simpl;
    first [done | by apply entry_record_ne].
Qed.

Lemma postFaucet_entry_own now rpc token address (w : World) :
  entry (sentMemory (postFaucet now rpc token address w).2) address token
  = if cooled_down now (recorded (sentMemory w) address token)
    then Some now else entry (sentMemory w) address token.
Proof.
  destruct (postFaucet_handled now rpc token address w) as [Hcool|Hcool ?|Hcool ? ?
    |config Hcool ? ? ?|config handle Hcool ? ? ? ?]; simpl; rewrite Hcool;
    first [done | apply entry_record_eq].
Qed.

Lemma postFaucet_refused now rpc token address (w : World) stamp :
  stamp ≠ 0 →
  entry (sentMemory w) address token = Some stamp →
  now - stamp < 86400000 →
  postFaucet now rpc token address w = (Normal already_received, w).
Proof.
  intros Hnz Hentry Hyoung.
  assert (recorded (sentMemory w) address token = Some stamp) as Hrec
    by by apply recorded_Some.
  apply postFaucetWith_cooling. rewrite Hrec.
  apply not_true_is_false. rewrite cooled_down_Some by done. lia.
Qed.

Lemma serve_event_keeps_entry rpc (w : World) e address token stamp :
  stamp ≠ 0 →
  entry (sentMemory w) address token = Some stamp →
  event_time e - stamp < 86400000 →
  entry (sentMemory (serve_event rpc w e)) address token = Some stamp.
Proof.
  intros Hnz Hentry Hyoung. destruct e as [now token' address'|now]; simpl in *.
  - destruct (decide ((address', token') = (address, token))) as [[= -> ->]|Hne].
    + by rewrite (postFaucet_refused _ _ _ _ _ stamp).
    + by rewrite postFaucet_entry_other.
  - rewrite entry_sweep, Hentry. unfold age.
    rewrite bool_decide_eq_false_2; [done|rewrite cooldown_ms_value; lia].
Qed.

Lemma serve_keeps_entry rpc events (w : World) address token stamp :
  stamp ≠ 0 →
  entry (sentMemory w) address token = Some stamp →
  Forall (λ e, event_time e - stamp < 86400000) events →
  entry (sentMemory (serve rpc events w)) address token = Some stamp.
Proof.
  intros Hnz. revert w.
  induction events as [|e events IH]; intros w Hentry Hyoung; [done|].
  apply Forall_cons in Hyoung as [He Hrest]. simpl.
  apply IH; [|done]. by apply serve_event_keeps_entry.
Qed.

(** The cooldown holds across the traffic.  In an ordinary store and for
    ordinary names throughout: once a request for a pair has passed the
    cooldown test at [t1] (whether or not it led to a transfer, and whether
    or not the transfer succeeded), every request for that pair made less
    than 24 hours after [t1] is refused without a chain call, whatever
    requests and sweeps are served in between. *)
Theorem cooldown_holds_across_events rpc t1 t2 token address events (w : World) :
  ordinary_store (sentMemory w) → ordinary token → ordinary address →
  Forall ordinary_event events →
  t1 ≠ 0 →
  cooled_down t1 (recorded (sentMemory w) address token) = true →
  Forall (λ e, event_time e - t1 < 86400000) events →
  t2 - t1 < 86400000 →
  let w2 := serve rpc events (postFaucet t1 rpc token address w).2 in
  postFaucet t2 rpc token address w2 = (Normal already_received, w2).
Proof.
  intros _ _ _ _ Hnz Hcool Hyoung Ht2. simpl.
  apply (postFaucet_refused _ _ _ _ _ t1); [done| |done].
  apply serve_keeps_entry; [done| |done].
  by rewrite postFaucet_entry_own, Hcool.
Qed.

Lemma cooldown_holds_across_events_witness :
  ordinary_store (sentMemory world0) ∧ ordinary "ETH" ∧ ordinary addrA
  ∧ Forall ordinary_event
      [Request (t0 + 1) "EDG" addrA; Sweep (t0 + 1000); Request (t0 + 2000) "ETH" addrA]
  ∧ t0 ≠ 0
  ∧ cooled_down t0 (recorded (sentMemory world0) addrA "ETH") = true
  ∧ Forall (λ e, event_time e - t0 < 86400000)
      [Request (t0 + 1) "EDG" addrA; Sweep (t0 + 1000); Request (t0 + 2000) "ETH" addrA]
  ∧ (t0 + 86399999) - t0 < 86400000
  ∧ (postFaucet (t0 + 86399999) refuse "ETH" addrA
       (serve refuse
          [Request (t0 + 1) "EDG" addrA; Sweep (t0 + 1000); Request (t0 + 2000) "ETH" addrA]
          (postFaucet t0 refuse "ETH" addrA world0).2)).1
    = Normal already_received.
Proof.
  assert (ordinary_store (sentMemory world0)) as Hstore by (apply (bool_decide_unpack _); vm_compute; exact I).
  assert (ordinary "ETH") as Htoken by (apply (bool_decide_unpack _); vm_compute; exact I).
  assert (ordinary "EDG") as Htoken' by (apply (bool_decide_unpack _); vm_compute; exact I).
  assert (ordinary addrA) as Haddress by (apply (bool_decide_unpack _); vm_compute; exact I).
  assert (Forall ordinary_event
            [Request (t0 + 1) "EDG" addrA; Sweep (t0 + 1000);
             Request (t0 + 2000) "ETH" addrA]) as Hordinary
    by (repeat constructor; assumption).
  assert (Forall (λ e, event_time e - t0 < 86400000)
            [Request (t0 + 1) "EDG" addrA; Sweep (t0 + 1000);
             Request (t0 + 2000) "ETH" addrA]) as Hyoung
    by (repeat constructor; simpl; unfold t0; lia).
  split; [exact Hstore|]. split; [exact Htoken|]. split; [exact Haddress|].
  split; [exact Hordinary|].
  split; [discriminate|]. split; [reflexivity|]. split; [exact Hyoung|].
  split; [unfold t0; lia|].
  rewrite (cooldown_holds_across_events refuse t0 (t0 + 86399999) "ETH" addrA
             [Request (t0 + 1) "EDG" addrA; Sweep (t0 + 1000);
              Request (t0 + 2000) "ETH" addrA] world0);
    [reflexivity|exact Hstore|exact Htoken|exact Haddress|exact Hordinary
    |discriminate|reflexivity|exact Hyoung|unfold t0; lia].
Defined.

Lemma gate_after_sweep now now' (m : SentMemory) address token :
  now ≤ now' →
  cooled_down now' (recorded (sweep now m) address token)
  = cooled_down now' (recorded m address token).
Proof.
  intros Hle. unfold recorded. rewrite entry_sweep. unfold age.
  destruct (entry m address token) as [stamp|]; [|done].
  case_bool_decide as Hold; [|done].
  destruct (truthy stamp) eqn:Htruthy; [|done]. simpl. rewrite Htruthy. simpl.
  symmetry. apply bool_decide_eq_true_2. lia.
Qed.

(** The answer and the chain call of a request depend on the state only
    through the cooldown test of its pair. *)
Lemma postFaucet_same_gate now rpc token address (w w' : World) :
  cooled_down now (recorded (sentMemory w) address token)
  = cooled_down now (recorded (sentMemory w') address token) →
  (postFaucet now rpc token address w).1 = (postFaucet now rpc token address w').1
  ∧ (chainCalls w = chainCalls w' →
     chainCalls (postFaucet now rpc token address w).2
     = chainCalls (postFaucet now rpc token address w').2).
Proof.
  intros Hgate.
  destruct (postFaucet_handled now rpc token address w)
    as [Hc|Hc Hout|Hc Hin Hbad|config Hc Hgood Hnative Hconfig
       |config handle Hc Hgood Htoken Hconfig Hhandle];
  destruct (postFaucet_handled now rpc token address w')
    as [Hc'|Hc' Hout'|Hc' Hin' Hbad'|config' Hc' Hgood' Hnative' Hconfig'
       |config' handle' Hc' Hgood' Htoken' Hconfig' Hhandle'];
    simpl; try congruence; try done;
    try (exfalso; first [apply Hout | apply Hout']; apply elem_of_dom; by eauto);
    try (exfalso; subst; first [apply native_symbol in Hnative as [|]
                               | apply native_symbol in Hnative' as [|]];
         discriminate).
  - rewrite Hconfig in Hconfig'. injection Hconfig' as <-.
    split; [done|]. by intros ->.
  - rewrite Hconfig in Hconfig'. injection Hconfig' as <-.
    destruct handle, handle'. split; [done|]. by intros ->.
Qed.

(** For ordinary names in an ordinary store the sweep cannot be observed
    through the handler: a request made at or after the time of a sweep
    gets the same answer and starts the same chain call as if the sweep had
    not run. *)
Theorem sweep_is_unobservable now now' rpc token address (w : World) :
  ordinary_store (sentMemory w) → ordinary token → ordinary address →
  now ≤ now' →
  let swept := (sweep_callback now w).2 in
  (postFaucet now' rpc token address swept).1
  = (postFaucet now' rpc token address w).1
  ∧ chainCalls (postFaucet now' rpc token address swept).2
    = chainCalls (postFaucet now' rpc token address w).2.
Proof.
  intros _ _ _ Hle. simpl.
  destruct (postFaucet_same_gate now' rpc token address
              (sweep_callback now w).2 w) as [Hanswer Hcalls].
  { simpl. by apply gate_after_sweep. }
  split; [done|]. by apply Hcalls.
Qed.

Lemma sweep_is_unobservable_witness :
  ordinary_store (sentMemory (world_sent "ETH")) ∧ ordinary "ETH" ∧ ordinary addrA
  ∧ t0 + 86400000 ≤ t0 + 86400001
  ∧ (postFaucet (t0 + 86400001) (acknowledge "0xbeef") "ETH" addrA
       (sweep_callback (t0 + 86400000) (world_sent "ETH")).2).1
    = (postFaucet (t0 + 86400001) (acknowledge "0xbeef") "ETH" addrA
         (world_sent "ETH")).1.
Proof.
  assert (ordinary_store (sentMemory (world_sent "ETH"))) as Hstore by (apply (bool_decide_unpack _); vm_compute; exact I).
  assert (ordinary "ETH") as Htoken by (apply (bool_decide_unpack _); vm_compute; exact I).
  assert (ordinary addrA) as Haddress by (apply (bool_decide_unpack _); vm_compute; exact I).
  split; [exact Hstore|]. split; [exact Htoken|]. split; [exact Haddress|].
  split; [unfold t0; lia|].
  apply (sweep_is_unobservable (t0 + 86400000) (t0 + 86400001)
           (acknowledge "0xbeef") "ETH" addrA (world_sent "ETH")
           Hstore Htoken Haddress).
  unfold t0. lia.
Defined.

(** Every timestamp in the store is the time of a request for its pair:
    after any sequence of requests and sweeps, an entry is one that was
    there at the start or the clock value of a request of the sequence for
    that address and token. *)
Theorem stored_stamps_are_request_times rpc events (w : World) address token stamp :
  entry (sentMemory (serve rpc events w)) address token = Some stamp →
  entry (sentMemory w) address token = Some stamp
  ∨ Request stamp token address ∈ events.
Proof.
  revert w. induction events as [|e events IH]; intros w Hentry; [by left|].
  simpl in Hentry. apply IH in Hentry as [Hentry|Hin];
    [|right; apply elem_of_cons; by right].
  destruct e as [now token' address'|now]; simpl in Hentry.
  - destruct (decide ((address', token') = (address, token))) as [[= -> ->]|Hne].
    + rewrite postFaucet_entry_own in Hentry.
      destruct (cooled_down _ _); [|by left].
      injection Hentry as ->. right. apply elem_of_cons. by left.
    + rewrite postFaucet_entry_other in Hentry by done. by left.
  - rewrite entry_sweep in Hentry. left.
    destruct (entry (sentMemory w) address token) as [s|]; [|done].
    by case_bool_decide.
Qed.

Lemma stored_stamps_are_request_times_witness :
  entry (sentMemory (serve refuse [Request t0 "DOGE" "abc"; Sweep (t0 + 5)] world0))
    "abc" "DOGE" = Some t0
  ∧ (entry (sentMemory world0) "abc" "DOGE" = Some t0
     ∨ Request t0 "DOGE" "abc" ∈ [Request t0 "DOGE" "abc"; Sweep (t0 + 5)]).
Proof.
  split; [reflexivity|].
  apply (stored_stamps_are_request_times refuse
           [Request t0 "DOGE" "abc"; Sweep (t0 + 5)] world0 "abc" "DOGE" t0).
  reflexivity.
Defined.

Lemma serve_event_calls rpc (w : World) e :
  ∃ calls : list ChainCall,
    chainCalls (serve_event rpc w e) = chainCalls w ++ calls
    ∧ (length calls ≤ if is_request e then 1 else 0)%nat.
Proof.
  destruct e as [now token address|now]; simpl.
  - destruct (postFaucet_handled now rpc token address w); simpl;
      first [ exists []; split; [by rewrite app_nil_r|simpl; lia]
            | eexists [_]; split; [reflexivity|simpl; lia] ].
  - exists []. split; [by rewrite app_nil_r|simpl; lia].
Qed.

(** Over any sequence of requests and sweeps the log of chain calls only
    grows, and by no more than the number of requests served. *)
Theorem calls_bounded_by_requests rpc events (w : World) :
  ∃ calls : list ChainCall,
    chainCalls (serve rpc events w) = chainCalls w ++ calls
    ∧ (length calls ≤ length (List.filter is_request events))%nat.
Proof.
  revert w. induction events as [|e events IH]; intros w; simpl.
  - exists []. split; [by rewrite app_nil_r|simpl; lia].
  - destruct (serve_event_calls rpc w e) as (calls1 & Hcalls1 & Hlen1).
    destruct (IH (serve_event rpc w e)) as (calls2 & Hcalls2 & Hlen2).
    exists (calls1 ++ calls2). rewrite app_assoc, <- Hcalls1. split; [done|].
    rewrite length_app. destruct (is_request e); simpl in *; lia.
Qed.

Lemma postFaucet_dom now rpc token address (w : World) :
  dom (sentMemory (postFaucet now rpc token address w).2)
  = {[ address ]} ∪ dom (sentMemory w).
Proof.
  assert (dom (record now address token (sentMemory w))
          = {[ address ]} ∪ dom (sentMemory w)) as Hrecord
    by (unfold record; apply dom_insert_L).
  destruct (postFaucet_handled now rpc token address w) as [Hcool|?|?|?|?];
    simpl; try done.
  symmetry. apply subseteq_union_1_L, singleton_subseteq_l.
  unfold recorded, entry in Hcool. apply elem_of_dom.
  by destruct (sentMemory w !! address).
Qed.

Lemma serve_event_dom rpc (w : World) e :
  dom (sentMemory w) ⊆ dom (sentMemory (serve_event rpc w e)).
Proof.
  destruct e as [now token address|now]; simpl.
  - rewrite postFaucet_dom. set_solver.
  - apply set_eq_subseteq. symmetry. apply set_eq. intros address.
    by rewrite !elem_of_dom, lookup_sweep, fmap_is_Some.
Qed.

Lemma serve_dom rpc events (w : World) :
  dom (sentMemory w) ⊆ dom (sentMemory (serve rpc events w)).
Proof.
  revert w. induction events as [|e events IH]; intros w; [done|].
  simpl. etrans; [apply (serve_event_dom rpc w e)|apply IH].
Qed.

Lemma ordinary_not_proto name : ordinary name → name ≠ "__proto__".
Proof.
  intros Hordinary ->. apply Hordinary.
  apply (bool_decide_unpack _). by vm_compute.
Qed.

(** The ordinary stores are closed under the traffic of ordinary
    requests and sweeps. *)
Lemma serve_ordinary_store rpc events (w : World) :
  ordinary_store (sentMemory w) → Forall ordinary_event events →
  ordinary_store (sentMemory (serve rpc events w)).
Proof.
  revert w. induction events as [|e events IH]; intros w Hstore Hevents; [done|].
  apply Forall_cons in Hevents as [He Hevents]. simpl. apply IH; [|done].
  unfold ordinary_store in *.
  destruct e as [now token address|now]; simpl in *.
  - rewrite postFaucet_dom, elem_of_union, elem_of_singleton.
    intros [Heq|Hin]; [|done].
    destruct He as [_ Haddress]. by apply ordinary_not_proto in Haddress.
  - by rewrite elem_of_dom, lookup_sweep, fmap_is_Some, <- elem_of_dom.
Qed.

(** The store never forgets an address.  Starting from an ordinary store
    and serving ordinary requests and sweeps, every address that was a key
    at the start is a key afterwards, and so is the address of every
    request served, whatever its token, whether it is well formed or not,
    and whatever the answer was. *)
Theorem addresses_are_never_dropped rpc events (w : World) :
  ordinary_store (sentMemory w) → Forall ordinary_event events →
  dom (sentMemory w) ⊆ dom (sentMemory (serve rpc events w))
  ∧ (∀ at_ms token address,
       Request at_ms token address ∈ events →
       address ∈ dom (sentMemory (serve rpc events w))).
Proof.
  intros _ _. split; [apply serve_dom|].
  revert w. induction events as [|e events IH]; intros w at_ms token address Hin.
  - by apply elem_of_nil in Hin.
  - apply elem_of_cons in Hin as [<-|Hin]; simpl.
    + apply (serve_dom rpc events). rewrite postFaucet_dom.
      apply elem_of_union. left. by apply elem_of_singleton.
    + by eapply IH.
Qed.

Lemma addresses_are_never_dropped_witness :
  ordinary_store (sentMemory world0)
  ∧ Forall ordinary_event [Request t0 "DOGE" "abc"; Sweep (t0 + 86400000)]
  ∧ Request t0 "DOGE" "abc" ∈ [Request t0 "DOGE" "abc"; Sweep (t0 + 86400000)]
  ∧ "abc" ∈ dom (sentMemory (serve refuse
                               [Request t0 "DOGE" "abc"; Sweep (t0 + 86400000)]
                               world0)).
Proof.
  assert (ordinary_store (sentMemory world0)) as Hstore by (apply (bool_decide_unpack _); vm_compute; exact I).
  assert (ordinary "DOGE") as Htoken by (apply (bool_decide_unpack _); vm_compute; exact I).
  assert (ordinary "abc") as Haddress by (apply (bool_decide_unpack _); vm_compute; exact I).
  assert (Forall ordinary_event [Request t0 "DOGE" "abc"; Sweep (t0 + 86400000)])
    as Hordinary by (repeat constructor; assumption).
  assert (Request t0 "DOGE" "abc" ∈ [Request t0 "DOGE" "abc"; Sweep (t0 + 86400000)])
    as Hin by (apply elem_of_cons; by left).
  split; [exact Hstore|]. split; [exact Hordinary|]. split; [exact Hin|].
  apply (proj2 (addresses_are_never_dropped refuse
                  [Request t0 "DOGE" "abc"; Sweep (t0 + 86400000)] world0
                  Hstore Hordinary)
           t0 "DOGE" "abc" Hin).
Defined.

(** ** The first revision of [src/index.ts] *)

Lemma Rev0_in_supportedTokens token :
  token ∈ dom Rev0.supportedTokens ↔ token = "ETH" ∨ token = "USDC".
Proof.
  unfold Rev0.supportedTokens. simpl.
  rewrite !dom_insert_L, dom_empty_L, !elem_of_union, !elem_of_singleton,
    elem_of_empty.
  tauto.
Qed.

Lemma Rev0_postFaucet_ETH rpc address (w : World) :
  valid_address address = true →
  Rev0.postFaucet rpc "ETH" address w
  = let call := SendTransaction ethersWallet address Rev0.parseEther_1_0 in
    (match rpc call with
     | Submitted hash => Normal ("Sent 1 ETH TX hash: " +:+ hash +:+ ".")
     | Rejected message => Abrupt message
     end, logged call w).
Proof.
  intros Hgood. unfold Rev0.postFaucet.
  rewrite bool_decide_eq_true_2 by (apply Rev0_in_supportedTokens; auto).
  rewrite Hgood. case_decide; [|done].
  rewrite bind_run, chain_run. by destruct (rpc _).
Qed.

Lemma Rev0_getContract_USDC :
  Rev0.getContract "USDC"
  = Some {| faucetAmount := HexString "0x1312D00"; contract := Some jhkToken |}.
Proof. reflexivity. Qed.

Lemma Rev0_postFaucet_USDC rpc address (w : World) :
  valid_address address = true →
  Rev0.postFaucet rpc "USDC" address w
  = let call := ContractTransfer jhkToken address (HexString "0x1312D00") in
    (match rpc call with
     | Submitted hash => Normal "Sent 20 USDC."
     | Rejected message => Abrupt message
     end, logged call w).
Proof.
  intros Hgood. unfold Rev0.postFaucet.
  rewrite bool_decide_eq_true_2 by (apply Rev0_in_supportedTokens; auto).
  rewrite Hgood. case_decide; [discriminate|].
  rewrite Rev0_getContract_USDC, bind_run, chain_run. by destruct (rpc _).
Qed.

Lemma Rev0_postFaucet_rejected rpc token address (w : World) :
  token ∉ dom Rev0.supportedTokens ∨ valid_address address = false →
  Rev0.postFaucet rpc token address w
  = (Normal (if bool_decide (token ∈ dom Rev0.supportedTokens)
             then "Invalid address" else "Error"), w).
Proof.
  unfold Rev0.postFaucet. intros [Hout|Hbad].
  - by rewrite bool_decide_eq_false_2.
  - case_bool_decide; [by rewrite Hbad|done].
Qed.

(** In the first revision of [index.ts] an error thrown by the chain call
    is not caught: whenever the handler made a call and the chain threw,
    the handler itself completes abruptly with that error, for the native
    send and for the contract transfer alike. *)
Theorem Rev0_failure_propagates rpc token address (w : World) call message :
  chainCalls (Rev0.postFaucet rpc token address w).2 = chainCalls w ++ [call] →
  rpc call = Rejected message →
  (Rev0.postFaucet rpc token address w).1 = Abrupt message.
Proof.
  intros Hcalls Hthrown.
  destruct (decide (token ∈ dom Rev0.supportedTokens)) as [Hin|Hout];
    [destruct (valid_address address) eqn:Hgood|].
  - apply Rev0_in_supportedTokens in Hin as [->| ->].
    + rewrite Rev0_postFaucet_ETH in Hcalls |- * by done. simpl in *.
      apply app_inv_head in Hcalls. injection Hcalls as <-. by rewrite Hthrown.
    + rewrite Rev0_postFaucet_USDC in Hcalls |- * by done. simpl in *.
      apply app_inv_head in Hcalls. injection Hcalls as <-. by rewrite Hthrown.
  - rewrite Rev0_postFaucet_rejected in Hcalls by auto. simpl in Hcalls.
    apply (f_equal length) in Hcalls. rewrite length_app in Hcalls.
    simpl in Hcalls. lia.
  - rewrite Rev0_postFaucet_rejected in Hcalls by auto. simpl in Hcalls.
    apply (f_equal length) in Hcalls. rewrite length_app in Hcalls.
    simpl in Hcalls. lia.
Qed.

Lemma Rev0_failure_propagates_witness :
  chainCalls (Rev0.postFaucet refuse "USDC" addrA world0).2
  = chainCalls world0 ++ [ContractTransfer jhkToken addrA (HexString "0x1312D00")]
  ∧ refuse (ContractTransfer jhkToken addrA (HexString "0x1312D00"))
    = Rejected "insufficient funds"
  ∧ (Rev0.postFaucet refuse "USDC" addrA world0).1 = Abrupt "insufficient funds".
Proof.
  split; [reflexivity|]. split; [reflexivity|].
  apply (Rev0_failure_propagates refuse "USDC" addrA world0
           (ContractTransfer jhkToken addrA (HexString "0x1312D00"))
           "insufficient funds"); reflexivity.
Defined.

(** The first revision has no cooldown: the handler never reads or writes
    the store, and every request with a registered token and a well-formed
    address starts a chain call, whatever was served before. *)
Theorem Rev0_has_no_cooldown rpc token address (w : World) :
  sentMemory (Rev0.postFaucet rpc token address w).2 = sentMemory w
  ∧ (token ∈ dom Rev0.supportedTokens → valid_address address = true →
       ∃ call, chainCalls (Rev0.postFaucet rpc token address w).2
               = chainCalls w ++ [call]
               ∧ ∀ w', chainCalls (Rev0.postFaucet rpc token address w').2
                       = chainCalls w' ++ [call]).
Proof.
  split.
  - destruct (decide (token ∈ dom Rev0.supportedTokens)) as [Hin|Hout];
      [destruct (valid_address address) eqn:Hgood|].
    + apply Rev0_in_supportedTokens in Hin as [->| ->].
      * by rewrite Rev0_postFaucet_ETH.
      * by rewrite Rev0_postFaucet_USDC.
    + by rewrite Rev0_postFaucet_rejected by auto.
    + by rewrite Rev0_postFaucet_rejected by auto.
  - intros [->| ->]%Rev0_in_supportedTokens Hgood; eexists; split.
    + by rewrite Rev0_postFaucet_ETH.
    + intros w'. by rewrite Rev0_postFaucet_ETH.
    + by rewrite Rev0_postFaucet_USDC.
    + intros w'. by rewrite Rev0_postFaucet_USDC.
Qed.

Lemma Rev0_has_no_cooldown_witness :
  "ETH" ∈ dom Rev0.supportedTokens
  ∧ valid_address addrA = true
  ∧ ∃ call, chainCalls (Rev0.postFaucet refuse "ETH" addrA world0).2
            = chainCalls world0 ++ [call]
            ∧ ∀ w', chainCalls (Rev0.postFaucet refuse "ETH" addrA w').2
                    = chainCalls w' ++ [call].
Proof.
  assert ("ETH" ∈ dom Rev0.supportedTokens) as Hin
    by (apply (bool_decide_unpack _); vm_compute; exact I).
  split; [exact Hin|]. split; [reflexivity|].
  apply (proj2 (Rev0_has_no_cooldown refuse "ETH" addrA world0) Hin eq_refl).
Defined.

(** What the first revision sends and what it says.  For [ETH] the value
    sent is one ether, not the registry's [faucetAmount], and the text says
    [1]; for [USDC] the amount is the registry's and the text says [20],
    without a hash; an ordinary name that is not registered is answered
    ["Error"] and a malformed address with a registered token
    ["Invalid address"], both without a chain call. *)
Theorem Rev0_dispatch rpc token address (w : World) hash :
  (valid_address address = true →
   rpc (SendTransaction ethersWallet address (BigNumber (10 ^ 18)%N)) = Submitted hash →
   Rev0.postFaucet rpc "ETH" address w
   = (Normal ("Sent 1 ETH TX hash: " +:+ hash +:+ "."),
      logged (SendTransaction ethersWallet address (BigNumber (10 ^ 18)%N)) w))
  ∧ (∀ config, Rev0.supportedTokens !! "USDC" = Some config →
       valid_address address = true →
       rpc (ContractTransfer jhkToken address (faucetAmount config)) = Submitted hash →
       Rev0.postFaucet rpc "USDC" address w
       = (Normal "Sent 20 USDC.",
          logged (ContractTransfer jhkToken address (faucetAmount config)) w))
  ∧ (ordinary token → token ∉ dom Rev0.supportedTokens →
       Rev0.postFaucet rpc token address w = (Normal "Error", w))
  ∧ (token ∈ dom Rev0.supportedTokens → valid_address address = false →
       Rev0.postFaucet rpc token address w = (Normal "Invalid address", w)).
Proof.
  split; [|split; [|split]].
  - intros Hgood Hack. rewrite Rev0_postFaucet_ETH by done. simpl.
    unfold Rev0.parseEther_1_0. by rewrite Hack.
  - intros config Hconfig Hgood Hack.
    change (Some {| faucetAmount := HexString "0x1312D00";
                    contract := Some jhkToken |} = Some config) in Hconfig.
    injection Hconfig as <-. rewrite Rev0_postFaucet_USDC by done.
    simpl in *. by rewrite Hack.
  - intros _ Hout. rewrite Rev0_postFaucet_rejected by auto.
    by rewrite bool_decide_eq_false_2.
  - intros Hin Hbad. rewrite Rev0_postFaucet_rejected by auto.
    by rewrite bool_decide_eq_true_2.
Qed.

Lemma Rev0_dispatch_witness :
  (valid_address addrA = true
   ∧ Rev0.postFaucet (acknowledge "0xbeef") "ETH" addrA world0
     = (Normal ("Sent 1 ETH TX hash: " +:+ "0xbeef" +:+ "."),
        logged (SendTransaction ethersWallet addrA (BigNumber (10 ^ 18)%N)) world0))
  ∧ (Rev0.supportedTokens !! "USDC"
     = Some {| faucetAmount := HexString "0x1312D00"; contract := Some jhkToken |}
     ∧ Rev0.postFaucet (acknowledge "0xbeef") "USDC" addrA world0
       = (Normal "Sent 20 USDC.",
          logged (ContractTransfer jhkToken addrA (HexString "0x1312D00")) world0))
  ∧ (ordinary "EDG" ∧ ("EDG" ∉ dom Rev0.supportedTokens)
     ∧ Rev0.postFaucet (acknowledge "0xbeef") "EDG" addrA world0
       = (Normal "Error", world0))
  ∧ ("ETH" ∈ dom Rev0.supportedTokens
     ∧ valid_address "abc" = false
     ∧ Rev0.postFaucet (acknowledge "0xbeef") "ETH" "abc" world0
       = (Normal "Invalid address", world0)).
Proof.
  assert (ordinary "EDG") as Htoken by (apply (bool_decide_unpack _); vm_compute; exact I).
  assert ("EDG" ∉ dom Rev0.supportedTokens) as Hout by (apply (bool_decide_unpack _); vm_compute; exact I).
  assert ("ETH" ∈ dom Rev0.supportedTokens) as Hin by (apply (bool_decide_unpack _); vm_compute; exact I).
  split; [|split; [|split]].
  - split; [reflexivity|].
    apply (proj1 (Rev0_dispatch (acknowledge "0xbeef") "ETH" addrA world0 "0xbeef"));
      reflexivity.
  - split; [reflexivity|].
    apply (proj1 (proj2 (Rev0_dispatch (acknowledge "0xbeef") "ETH" addrA world0
                           "0xbeef"))
             {| faucetAmount := HexString "0x1312D00"; contract := Some jhkToken |});
      reflexivity.
  - split; [exact Htoken|]. split; [exact Hout|].
    apply (proj1 (proj2 (proj2 (Rev0_dispatch (acknowledge "0xbeef") "EDG" addrA
                                  world0 "0xbeef"))) Htoken Hout).
  - split; [exact Hin|]. split; [reflexivity|].
    apply (proj2 (proj2 (proj2 (Rev0_dispatch (acknowledge "0xbeef") "ETH" "abc"
                                  world0 "0xbeef"))) Hin eq_refl).
Defined.

(** ** The handler of [part_001] *)

Lemma Rev1_getLastSentTimeStamp_known address token (w : World) data :
  sentMemory w !! address = Some data →
  Rev1.getLastSentTimeStamp address token w
  = (Normal (recorded (sentMemory w) address token), w).
Proof.
  intros Hdata. unfold Rev1.getLastSentTimeStamp, recorded, entry.
  rewrite bind_run. simpl. rewrite Hdata. simpl.
  destruct (data !! token) as [stamp|]; [|done]. by destruct (truthy stamp).
Qed.

(** In [part_001], in an ordinary store, a request whose address is an
    ordinary name with no entry is never served: the read of the cooldown
    throws before anything else is done, the handler completes abruptly
    and the state is as before, whatever the token and the clock. *)
Theorem Rev1_unknown_address_throws now rpc token address (w : World) :
  ordinary_store (sentMemory w) → ordinary address →
  sentMemory w !! address = None →
  ∃ message,
    Rev1Handler.postFaucet now rpc token address w = (Abrupt message, w).
Proof.
  intros _ _ Hnone. eexists. unfold Rev1Handler.postFaucet.
  by rewrite bind_run, Rev1_getLastSentTimeStamp_unknown_address.
Qed.

Lemma Rev1_unknown_address_throws_witness :
  ordinary_store (sentMemory world0) ∧ ordinary addrA
  ∧ sentMemory world0 !! addrA = None
  ∧ ∃ message,
      Rev1Handler.postFaucet t0 (acknowledge "0xbeef") "ETH" addrA world0
      = (Abrupt message, world0).
Proof.
  assert (ordinary_store (sentMemory world0)) as Hstore by (apply (bool_decide_unpack _); vm_compute; exact I).
  assert (ordinary addrA) as Haddress by (apply (bool_decide_unpack _); vm_compute; exact I).
  split; [exact Hstore|]. split; [exact Haddress|]. split; [reflexivity|].
  apply (Rev1_unknown_address_throws t0 (acknowledge "0xbeef") "ETH" addrA world0
           Hstore Haddress).
  reflexivity.
Defined.

Lemma Rev1_postFaucet_memory now rpc token address (w : World) data :
  sentMemory w !! address = Some data →
  sentMemory (Rev1Handler.postFaucet now rpc token address w).2
  = if cooled_down now (recorded (sentMemory w) address token)
    then record now address token (sentMemory w) else sentMemory w.
Proof.
  intros Hdata. unfold Rev1Handler.postFaucet.
  rewrite bind_run, (Rev1_getLastSentTimeStamp_known _ _ _ data) by done.
  destruct (cooled_down now _); [|done].
  rewrite bind_run, setLastSentTimeStamp_run.
  case_bool_decide; [|done].
  destruct (valid_address address); [|done].
  case_decide.
  - rewrite bind_run, chain_run. by destruct (rpc _).
  - destruct (Rev0.getContract token) as [[amount [handle|]]|]; try done.
    rewrite bind_run, chain_run. by destruct (rpc _).
Qed.

(** [part_001] cannot start tracking an ordinary address: in an ordinary
    store a request with an ordinary address adds no key to the store, and
    in the empty store it throws and leaves the store empty. *)
Theorem Rev1_never_learns_an_address now rpc token address (w : World) :
  ordinary_store (sentMemory w) → ordinary address →
  dom (sentMemory (Rev1Handler.postFaucet now rpc token address w).2)
  = dom (sentMemory w)
  ∧ (sentMemory w = ∅ →
       ∃ message,
         Rev1Handler.postFaucet now rpc token address w = (Abrupt message, w)).
Proof.
  intros _ _. split.
  - destruct (sentMemory w !! address) as [data|] eqn:Hdata.
    + rewrite (Rev1_postFaucet_memory _ _ _ _ _ data) by done.
      destruct (cooled_down now _); [|done].
      unfold record. rewrite dom_insert_L.
      apply subseteq_union_1_L, singleton_subseteq_l, elem_of_dom. eauto.
    + unfold Rev1Handler.postFaucet.
      by rewrite bind_run, Rev1_getLastSentTimeStamp_unknown_address.
  - intros Hempty. eexists. unfold Rev1Handler.postFaucet.
    rewrite bind_run, Rev1_getLastSentTimeStamp_unknown_address; [done|].
    by rewrite Hempty, lookup_empty.
Qed.

Lemma Rev1_never_learns_an_address_witness :
  ordinary_store (sentMemory world0) ∧ ordinary addrA
  ∧ sentMemory world0 = ∅
  ∧ ∃ message,
      Rev1Handler.postFaucet t0 (acknowledge "0xbeef") "USDC" addrA world0
      = (Abrupt message, world0).
Proof.
  assert (ordinary_store (sentMemory world0)) as Hstore by (apply (bool_decide_unpack _); vm_compute; exact I).
  assert (ordinary addrA) as Haddress by (apply (bool_decide_unpack _); vm_compute; exact I).
  split; [exact Hstore|]. split; [exact Haddress|]. split; [reflexivity|].
  apply (proj2 (Rev1_never_learns_an_address t0 (acknowledge "0xbeef") "USDC"
                  addrA world0 Hstore Haddress)).
  reflexivity.
Defined.

(** In [part_001] a failed send still uses up the cooldown: for an address
    that the store knows, a pair that has cooled down, [ETH] and a
    well-formed address, the request is recorded at the clock value and,
    when the chain throws, the handler completes abruptly with the
    error. *)
Theorem Rev1_failed_send_is_recorded now rpc address (w : World) data message :
  sentMemory w !! address = Some data →
  cooled_down now (recorded (sentMemory w) address "ETH") = true →
  valid_address address = true →
  rpc (SendTransaction ethersWallet address Rev0.parseEther_1_0) = Rejected message →
  Rev1Handler.postFaucet now rpc "ETH" address w
  = (Abrupt message,
     logged (SendTransaction ethersWallet address Rev0.parseEther_1_0)
       (recorded_world now address "ETH" w)).
Proof.
  intros Hdata Hcool Hgood Hthrown. unfold Rev1Handler.postFaucet.
  rewrite bind_run, (Rev1_getLastSentTimeStamp_known _ _ _ data), Hcool by done.
  rewrite bind_run, setLastSentTimeStamp_run.
  rewrite bool_decide_eq_true_2 by (apply Rev0_in_supportedTokens; auto).
  rewrite Hgood. case_decide; [|done].
  by rewrite bind_run, chain_run, Hthrown.
Qed.

Lemma Rev1_failed_send_is_recorded_witness :
  sentMemory (world_sent "USDC") !! addrA = Some {[ "USDC" := t0 ]}
  ∧ cooled_down (t0 + 1) (recorded (sentMemory (world_sent "USDC")) addrA "ETH") = true
  ∧ valid_address addrA = true
  ∧ refuse (SendTransaction ethersWallet addrA Rev0.parseEther_1_0)
    = Rejected "insufficient funds"
  ∧ Rev1Handler.postFaucet (t0 + 1) refuse "ETH" addrA (world_sent "USDC")
    = (Abrupt "insufficient funds",
       logged (SendTransaction ethersWallet addrA Rev0.parseEther_1_0)
         (recorded_world (t0 + 1) addrA "ETH" (world_sent "USDC"))).
Proof.
  split; [reflexivity|]. split; [reflexivity|]. split; [reflexivity|].
  split; [reflexivity|].
  apply (Rev1_failed_send_is_recorded (t0 + 1) refuse addrA (world_sent "USDC")
           {[ "USDC" := t0 ]} "insufficient funds"); reflexivity.
Defined.

(** ** The two cooldown tests, the clock at 0, and other pairs *)

(** The sweep and the handler use the same test: at a given clock value
    the sweep deletes a nonzero entry, under an address other than
    [__proto__], exactly when a request for its pair at that clock value
    would pass the cooldown test. *)
Theorem sweep_agrees_with_gate now (m : SentMemory) address token stamp :
  address ≠ "__proto__" →
  entry m address token = Some stamp →
  stamp ≠ 0 →
  entry (sweep now m) address token = None
  ↔ cooled_down now (recorded m address token) = true.
Proof.
  intros _ Hentry Hnz.
  assert (recorded m address token = Some stamp) as ->
    by by apply recorded_Some.
  rewrite entry_sweep, Hentry, cooled_down_Some by done.
  unfold age. rewrite cooldown_ms_value.
  case_bool_decide; split; (done || lia).
Qed.

Lemma sweep_agrees_with_gate_witness :
  addrA ≠ "__proto__"
  ∧ entry (sentMemory (world_sent "ETH")) addrA "ETH" = Some t0
  ∧ t0 ≠ 0
  ∧ (entry (sweep (t0 + 86400000) (sentMemory (world_sent "ETH"))) addrA "ETH" = None
     ↔ cooled_down (t0 + 86400000)
         (recorded (sentMemory (world_sent "ETH")) addrA "ETH") = true).
Proof.
  split; [discriminate|]. split; [reflexivity|]. split; [discriminate|].
  apply (sweep_agrees_with_gate (t0 + 86400000) (sentMemory (world_sent "ETH"))
           addrA "ETH" t0); [discriminate|reflexivity|discriminate].
Defined.

(** The cooldown rests on the clock being nonzero: for ordinary names in
    an ordinary store, a request recorded at clock value 0 leaves an entry
    that reads as [undefined], so that the next request for the pair
    passes the cooldown test at any time. *)
Theorem clock_zero_gives_no_cooldown rpc token address (w : World) now :
  ordinary_store (sentMemory w) → ordinary token → ordinary address →
  cooled_down 0 (recorded (sentMemory w) address token) = true →
  let w1 := (postFaucet 0 rpc token address w).2 in
  entry (sentMemory w1) address token = Some 0
  ∧ (getLastSentTimeStamp address token w1).1 = Normal None
  ∧ cooled_down now (recorded (sentMemory w1) address token) = true.
Proof.
  intros _ _ _ Hcool. simpl.
  assert (entry (sentMemory (postFaucet 0 rpc token address w).2) address token
          = Some 0) as Hentry
    by by rewrite postFaucet_entry_own, Hcool.
  split; [done|]. rewrite getLastSentTimeStamp_run. simpl.
  unfold recorded. by rewrite Hentry.
Qed.

Lemma clock_zero_gives_no_cooldown_witness :
  ordinary_store (sentMemory world0) ∧ ordinary "ETH" ∧ ordinary addrA
  ∧ cooled_down 0 (recorded (sentMemory world0) addrA "ETH") = true
  ∧ cooled_down 1
      (recorded (sentMemory (postFaucet 0 refuse "ETH" addrA world0).2) addrA "ETH")
    = true.
Proof.
  assert (ordinary_store (sentMemory world0)) as Hstore by (apply (bool_decide_unpack _); vm_compute; exact I).
  assert (ordinary "ETH") as Htoken by (apply (bool_decide_unpack _); vm_compute; exact I).
  assert (ordinary addrA) as Haddress by (apply (bool_decide_unpack _); vm_compute; exact I).
  split; [exact Hstore|]. split; [exact Htoken|]. split; [exact Haddress|].
  split; [reflexivity|].
  apply (clock_zero_gives_no_cooldown refuse "ETH" addrA world0 1
           Hstore Htoken Haddress).
  reflexivity.
Defined.


